(** * A shallow embedding of parts of the Lean 0.2 code base

    The development follows the C++ sources:
    - [util/memory_pool.h]                     ([Module MemoryPool]),
    - [library/let.cpp]                        ([Module LetMacro]),
    - the parser support utilities             ([Module ParserUtil]),
    - [library/tactic/rewrite_tactic.cpp]      ([Module RewriteTactic]).

    Kernel code that these files call but that is not part of the material
    (the type checker, the unifier, the elaborator, the parser object, the
    universe-level normaliser) enters either as a small model whose comment
    starts with "Modelled from the spec:", or as a field of an interface
    record over which the theorems quantify. *)

From Stdlib Require Import NArith Lia DecimalString DecimalN Sorting.Sorted Sorting.Permutation.
From stdpp Require Import base gmap strings list.

Local Open Scope N_scope.

(** ** Machine integers *)

(** [unsigned] is a 32-bit machine integer; arithmetic on it wraps around. *)
Definition unsigned_bits : N := 32.
Definition unsigned_modulus : N := 2 ^ unsigned_bits.
Definition wrap_unsigned (n : N) : N := n mod unsigned_modulus.

(** ** Hierarchical names ([util/name.h]) *)

(** Modelled from the spec: [util/name.h] is missing. A hierarchical name is a
    sequence of string or numeric components, outermost prefix first;
    [name{"rewriter", "max_iter"}] is [[inl "rewriter"; inl "max_iter"]] and
    the anonymous name [name()] is the empty sequence. *)
Definition name : Type := list (string + N).

Definition mk_name1 (s : string) : name := [inl s].
Definition mk_name2 (s1 s2 : string) : name := [inl s1; inl s2].

Definition decimal (n : N) : string := NilEmpty.string_of_uint (N.to_uint n).

Definition component_to_string (c : string + N) : string :=
  match c with
  | inl s => s
  | inr n => decimal n
  end.

(** The textual form of a name: its components separated by dots. *)
Fixpoint name_to_string (n : name) : string :=
  match n with
  | [] => "[anonymous]"
  | [c] => component_to_string c
  | c :: n' => component_to_string c +:+ "." +:+ name_to_string n'
  end.

(** ** Universe levels ([kernel/level.h]) *)

(** Modelled from the spec: [kernel/level.h] is missing. A universe level is
    zero, a named parameter, a metavariable, or the maximum of two levels; the
    successor is added because the source builds level one
    ([mk_level_one]). *)
Inductive level : Type :=
| level_zero
| level_succ (l : level)
| level_max (l1 l2 : level)
| level_param (n : name)
| level_meta (n : name).

Definition mk_level_zero : level := level_zero.
Definition mk_level_one : level := level_succ level_zero.
Definition mk_max (l1 l2 : level) : level := level_max l1 l2.
Definition mk_param_univ (n : name) : level := level_param n.

#[global] Instance level_eq_dec : EqDecision level.
Proof. solve_decision. Defined.

(** ** Locations of a rewrite step ([library/tactic/location.h]) *)

(** Modelled from the spec: [library/tactic/location.h] is missing. An
    occurrence selector is "all occurrences" or an explicit 1-based index
    set; a location designates "goal only" or a set of named hypotheses each
    with its own selector, optionally combined with the goal's selector. *)
Inductive occurrence : Type :=
| occ_all
| occ_pos (idxs : list N).

Inductive location : Type :=
| loc_goal_only (o : occurrence)
| loc_hypotheses (hs : list (name * occurrence)) (goal_occ : option occurrence).

#[global] Instance occurrence_eq_dec : EqDecision occurrence.
Proof. solve_decision. Defined.

#[global] Instance location_eq_dec : EqDecision location.
Proof. solve_decision. Defined.

Definition is_goal_only (loc : location) : bool :=
  match loc with
  | loc_goal_only _ => true
  | loc_hypotheses _ _ => false
  end.

Definition includes_goal (loc : location) : option occurrence :=
  match loc with
  | loc_goal_only o => Some o
  | loc_hypotheses _ g => g
  end.

Definition includes_hypothesis (loc : location) (h : name) : option occurrence :=
  match loc with
  | loc_goal_only _ => None
  | loc_hypotheses hs _ => (fun r => r.2.2) <$> list_find (fun p => p.1 = h) hs
  end.

(** ** Payloads of the rewrite-family macros ([rewrite_tactic.cpp], lines 66-180) *)

Record unfold_info : Type := mk_unfold_info {
  unfold_names : list name;
  unfold_location : location
}.

Record reduce_info : Type := mk_reduce_info {
  reduce_location : location
}.

Definition fold_info : Type := reduce_info.

Inductive multiplicity : Type := Once | AtMostN | ExactlyN | ZeroOrMore | OneOrMore.

Record rewrite_info : Type := mk_rewrite_info {
  m_symm : bool;
  m_multiplicity : multiplicity;
  m_num : option N;
  m_location : location
}.

Definition mk_once (symm : bool) (loc : location) : rewrite_info :=
  mk_rewrite_info symm Once None loc.
Definition mk_at_most_n (n : N) (symm : bool) (loc : location) : rewrite_info :=
  mk_rewrite_info symm AtMostN (Some n) loc.
Definition mk_exactly_n (n : N) (symm : bool) (loc : location) : rewrite_info :=
  mk_rewrite_info symm ExactlyN (Some n) loc.
Definition mk_zero_or_more (symm : bool) (loc : location) : rewrite_info :=
  mk_rewrite_info symm ZeroOrMore None loc.
Definition mk_one_or_more (symm : bool) (loc : location) : rewrite_info :=
  mk_rewrite_info symm OneOrMore None loc.

Definition get_multiplicity (i : rewrite_info) : multiplicity := m_multiplicity i.

Definition has_num (i : rewrite_info) : bool :=
  match get_multiplicity i with
  | AtMostN | ExactlyN => true
  | _ => false
  end.

(** [num()] dereferences [m_num]; the private constructor is only reached
    through the five factories above, so the count is present whenever
    [has_num] holds.  The default is never used on such values. *)
Definition num (i : rewrite_info) : N := default 0 (m_num i).

#[global] Instance multiplicity_eq_dec : EqDecision multiplicity.
Proof. solve_decision. Defined.
#[global] Instance unfold_info_eq_dec : EqDecision unfold_info.
Proof. solve_decision. Defined.
#[global] Instance reduce_info_eq_dec : EqDecision reduce_info.
Proof. solve_decision. Defined.
#[global] Instance rewrite_info_eq_dec : EqDecision rewrite_info.
Proof. solve_decision. Defined.

(** ** Macro definitions and expressions ([kernel/expr.h]) *)

(** The closed set of macro-definition cells.  A C++ cell is an object of a
    class derived from [macro_definition_cell]; the constructor of this type
    is the dynamic class, its arguments are the data members. *)
Inductive macro_definition : Type :=
| let_value_definition_cell (m_id : N)
| let_macro_definition_cell (m_var_name : name)
| explicit_macro_cell
| as_atomic_macro_cell
| rewrite_reduce_macro_cell (info : reduce_info)
| rewrite_fold_macro_cell (info : fold_info)
| rewrite_unfold_macro_cell (info : unfold_info)
| rewrite_element_macro_cell (info : rewrite_info).

(** Modelled from the spec: [kernel/expr.h] is missing. Binder visibility is
    reduced to the one distinction the sources here look at. *)
Inductive binder_info : Type := bi_default | bi_implicit | bi_inst_implicit.

(** Modelled from the spec: [kernel/expr.h] is missing. The variants are
    those of the spec's data model: bound variable, sort, global constant,
    metavariable, local constant (unique name, display name, type, binder
    annotation), application, the two binders, and macro node. *)
#[local] Unset Elimination Schemes.
Inductive expr : Type :=
| Var (idx : N)
| Sort (l : level)
| Constant (n : name) (ls : list level)
| Meta (n : name) (ty : expr)
| Local (n : name) (pp_name : name) (ty : expr) (bi : binder_info)
| App (f a : expr)
| Lambda (n : name) (dom body : expr) (bi : binder_info)
| Pi (n : name) (dom body : expr) (bi : binder_info)
| Macro (d : macro_definition) (args : list expr).
#[local] Set Elimination Schemes.

#[global] Instance binder_info_eq_dec : EqDecision binder_info.
Proof. solve_decision. Defined.
#[global] Instance macro_definition_eq_dec : EqDecision macro_definition.
Proof. solve_decision. Defined.

(** Structural identity of terms, as decided on the model. *)
Fixpoint expr_eq_dec (a b : expr) {struct a} : {a = b} + {a <> b}.
Proof.
  refine (
    match a, b with
    | Var i, Var j => cast_if (decide (i = j))
    | Sort l, Sort l' => cast_if (decide (l = l'))
    | Constant n ls, Constant n' ls' => cast_if_and (decide (n = n')) (decide (ls = ls'))
    | Meta n t, Meta n' t' => cast_if_and (decide (n = n')) (expr_eq_dec t t')
    | Local n p t bi, Local n' p' t' bi' =>
        cast_if_and4 (decide (n = n')) (decide (p = p')) (expr_eq_dec t t') (decide (bi = bi'))
    | App f x, App f' x' => cast_if_and (expr_eq_dec f f') (expr_eq_dec x x')
    | Lambda n d c bi, Lambda n' d' c' bi' =>
        cast_if_and4 (decide (n = n')) (expr_eq_dec d d') (expr_eq_dec c c') (decide (bi = bi'))
    | Pi n d c bi, Pi n' d' c' bi' =>
        cast_if_and4 (decide (n = n')) (expr_eq_dec d d') (expr_eq_dec c c') (decide (bi = bi'))
    | Macro d args, Macro d' args' =>
        cast_if_and (decide (d = d'))
          ((fix go (l l' : list expr) {struct l} : {l = l'} + {l <> l'} :=
              match l, l' with
              | [], [] => left eq_refl
              | x :: k, x' :: k' => cast_if_and (expr_eq_dec x x') (go k k')
              | _, _ => right _
              end) args args')
    | _, _ => right _
    end); clear expr_eq_dec; try clear go; congruence.
Defined.

#[global] Instance expr_eq_decision : EqDecision expr := expr_eq_dec.

Definition mk_constant (n : name) (ls : list level) : expr := Constant n ls.
Definition mk_macro (d : macro_definition) (args : list expr) : expr := Macro d args.

Definition is_macro (e : expr) : bool := if e is Macro _ _ then true else false.
Definition is_app (e : expr) : bool := if e is App _ _ then true else false.
Definition is_constant (e : expr) : bool := if e is Constant _ _ then true else false.
Definition is_local (e : expr) : bool := if e is Local _ _ _ _ then true else false.

Definition macro_def (e : expr) : option macro_definition :=
  if e is Macro d _ then Some d else None.
Definition macro_args (e : expr) : list expr :=
  if e is Macro _ args then args else [].
Definition macro_num_args (e : expr) : nat := length (macro_args e).
Definition macro_arg (e : expr) (i : nat) : option expr := macro_args e !! i.

Definition local_pp_name (e : expr) : name :=
  match e with
  | Local _ pp _ _ => pp
  | _ => []
  end.

Definition mlocal_name (e : expr) : name :=
  match e with
  | Local n _ _ _ | Meta n _ => n
  | _ => []
  end.

Definition mlocal_type (e : expr) : expr :=
  match e with
  | Local _ _ t _ | Meta _ t => t
  | _ => e
  end.

(** [mk_app(f, args)]: left-nested application of [f] to [args]. *)
Definition mk_app (f : expr) (args : list expr) : expr := foldl App f args.

(** [get_app_args(e, args)]: the head of the application spine of [e]; the
    arguments are appended to the buffer, first argument first. *)
Fixpoint get_app_rev_args (e : expr) : expr * list expr :=
  match e with
  | App f a => let '(h, rargs) := get_app_rev_args f in (h, a :: rargs)
  | _ => (e, [])
  end.

Definition get_app_args (e : expr) (buffer : list expr) : expr * list expr :=
  let '(h, rargs) := get_app_rev_args e in (h, buffer ++ rev rargs).

(** ** Structural induction and traversals ([kernel/replace_fn.h]) *)

(** Induction on terms, with the arguments of a macro node covered. *)
Section ExprInduction.
Variable P : expr -> Prop.
Hypothesis HVar : forall i, P (Var i).
Hypothesis HSort : forall l, P (Sort l).
Hypothesis HConstant : forall n ls, P (Constant n ls).
Hypothesis HMeta : forall n t, P t -> P (Meta n t).
Hypothesis HLocal : forall n pp t bi, P t -> P (Local n pp t bi).
Hypothesis HApp : forall f a, P f -> P a -> P (App f a).
Hypothesis HLambda : forall n d b bi, P d -> P b -> P (Lambda n d b bi).
Hypothesis HPi : forall n d b bi, P d -> P b -> P (Pi n d b bi).
Hypothesis HMacro : forall d args, Forall P args -> P (Macro d args).

Fixpoint expr_ind (e : expr) : P e :=
  match e with
  | Var i => HVar i
  | Sort l => HSort l
  | Constant n ls => HConstant n ls
  | Meta n t => HMeta n t (expr_ind t)
  | Local n pp t bi => HLocal n pp t bi (expr_ind t)
  | App f a => HApp f a (expr_ind f) (expr_ind a)
  | Lambda n d b bi => HLambda n d b bi (expr_ind d) (expr_ind b)
  | Pi n d b bi => HPi n d b bi (expr_ind d) (expr_ind b)
  | Macro d args =>
      HMacro d args
        ((fix go (l : list expr) : Forall P l :=
            match l with
            | [] => List.Forall_nil P
            | x :: l' => List.Forall_cons P x l' (expr_ind x) (go l')
            end) args)
  end.
End ExprInduction.

(** Modelled from the spec: the kernel's cached flag [has_local] is missing;
    it tells whether a term contains a local constant. *)
Fixpoint has_local (e : expr) : bool :=
  match e with
  | Var _ | Sort _ | Constant _ _ => false
  | Local _ _ _ _ => true
  | Meta _ t => has_local t
  | App f a => has_local f || has_local a
  | Lambda _ d b _ | Pi _ d b _ => has_local d || has_local b
  | Macro _ args => existsb has_local args
  end.

(** Modelled from the spec: the kernel's [replace] is missing.
    [replace(e, f)] visits [e] top-down with the number of binders passed so
    far as offset; where [f] returns a term this term replaces the visited
    one, which is then not entered; elsewhere the children (the type of a
    local constant or metavariable included) are visited in turn. *)
Fixpoint replace (f : expr -> N -> option expr) (e : expr) (offset : N) : expr :=
  match f e offset with
  | Some r => r
  | None =>
      match e with
      | Var _ | Sort _ | Constant _ _ => e
      | Meta n t => Meta n (replace f t offset)
      | Local n pp t bi => Local n pp (replace f t offset) bi
      | App g a => App (replace f g offset) (replace f a offset)
      | Lambda n d b bi => Lambda n (replace f d offset) (replace f b (offset + 1)) bi
      | Pi n d b bi => Pi n (replace f d offset) (replace f b (offset + 1)) bi
      | Macro d args => Macro d (map (fun a => replace f a offset) args)
      end
  end.

Definition local_info (e : expr) : binder_info :=
  match e with
  | Local _ _ _ bi => bi
  | _ => bi_default
  end.

(** * Fixed-size memory pool ([util/memory_pool.h]) *)

Module MemoryPool.

(** Addresses are machine words; [nullptr] is address zero. *)
Definition nullptr : N := 0.

Record memory_pool : Type := mk_memory_pool {
  m_size : N;
  m_free_list : N
}.

(** [memory_pool(unsigned size)] *)
Definition new_memory_pool (size : N) : memory_pool := mk_memory_pool size nullptr.

Section Pool.
(** The general allocator of [util/memory.h], which is not part of the
    material: its state and its [malloc]. *)
Variable allocator : Type.
Variable malloc : N -> allocator -> N * allocator.

(** The store the pool works on: the first machine word of every block,
    and the state of the general allocator. *)
Record memory : Type := mk_memory {
  first_word : gmap N N;
  general : allocator
}.

(** [*(reinterpret_cast<void **>(r))] *)
Definition load (mem : memory) (r : N) : N := default nullptr (first_word mem !! r).

Definition store (mem : memory) (r v : N) : memory :=
  mk_memory (<[r := v]> (first_word mem)) (general mem).

Definition allocate (pool : memory_pool) (mem : memory) : N * memory_pool * memory :=
  if decide (m_free_list pool ≠ nullptr) then
    let r := m_free_list pool in
    (r, mk_memory_pool (m_size pool) (load mem r), mem)
  else
    let '(r, g) := malloc (m_size pool) (general mem) in
    (r, pool, mk_memory (first_word mem) g).

Definition recycle (ptr : N) (pool : memory_pool) (mem : memory) : memory_pool * memory :=
  (mk_memory_pool (m_size pool) ptr, store mem ptr (m_free_list pool)).

Lemma load_store_same mem r v : load (store mem r v) r = v.
Proof. unfold load, store; simpl. by rewrite lookup_insert_eq. Qed.

Lemma load_store_other mem r r' v : r ≠ r' -> load (store mem r v) r' = load mem r'.
Proof. intros Hne. unfold load, store; simpl. by rewrite lookup_insert_ne. Qed.

(** The blocks reachable from the free list by following the stored links. *)
Inductive free_chain (mem : memory) : N -> list N -> Prop :=
| free_chain_nil : free_chain mem nullptr []
| free_chain_cons r rs :
    r ≠ nullptr -> free_chain mem (load mem r) rs -> free_chain mem r (r :: rs).

Lemma free_chain_store mem r v head rs :
  r ∉ rs -> free_chain mem head rs -> free_chain (store mem r v) head rs.
Proof.
  intros Hnotin Hc. induction Hc as [|r' rs Hr' Hc IH].
  - constructor.
  - apply not_elem_of_cons in Hnotin as [Hne Hnotin].
    constructor; [done|]. rewrite load_store_other by done. by apply IH.
Qed.

(** Recycling a block that is not pooled yet puts it in front of the chain. *)
Lemma recycle_free_chain pool mem b rs :
  b ≠ nullptr -> b ∉ rs -> free_chain mem (m_free_list pool) rs ->
  free_chain (recycle b pool mem).2 (m_free_list (recycle b pool mem).1) (b :: rs).
Proof.
  intros Hb Hnotin Hc. simpl. constructor; [done|].
  rewrite load_store_same. by apply free_chain_store.
Qed.

(** C9. A block is a non-null pointer handed out by the pool.  Whatever the
    state of the pool and of the store, [allocate()] directly after
    [recycle(b)] returns exactly [b]; the pool is back in the state it had
    before the [recycle], and the store is not touched by the [allocate]. *)
Theorem allocate_after_recycle (pool : memory_pool) (mem : memory) (b : N) :
  b ≠ nullptr ->
  allocate (recycle b pool mem).1 (recycle b pool mem).2
  = (b, pool, (recycle b pool mem).2).
Proof.
  intros Hb. unfold allocate, recycle; simpl.
  destruct (decide (b ≠ nullptr)) as [_|Hn]; [|done].
  rewrite load_store_same. by destruct pool.
Qed.
End Pool.

Arguments mk_memory {allocator}.
Arguments first_word {allocator}.
Arguments general {allocator}.

(** A bump allocator, to run the pool on. *)
Definition bump_malloc (size : N) (next : N) : N * N := (next, next + size).

Lemma allocate_after_recycle_witness :
  let pool := new_memory_pool 16 in
  let mem := mk_memory ∅ 4096 in
  4096 ≠ nullptr /\
  allocate N bump_malloc (recycle N 4096 pool mem).1 (recycle N 4096 pool mem).2
  = (4096, pool, (recycle N 4096 pool mem).2).
Proof.
  split; [done|]. apply (allocate_after_recycle N bump_malloc); done.
Defined.

(** Without a recycled block the pool falls back to the general allocator. *)
Example allocate_fresh :
  (allocate N bump_malloc (new_memory_pool 16) (mk_memory ∅ 4096)).1.1 = 4096.
Proof. reflexivity. Qed.

(** ** Sequences of pool operations, and the destructor *)

Section PoolRuns.
Variable allocator : Type.
Variable malloc : N -> allocator -> N * allocator.
Variable free : N -> allocator -> allocator.

(** [recycle] applied to the blocks of [bs], first block first. *)
Definition recycle_all (bs : list N) (pool : memory_pool) (mem : memory allocator)
    : memory_pool * memory allocator :=
  foldl (fun pm b => recycle allocator b pm.1 pm.2) (pool, mem) bs.

(** [n] calls of [allocate] in a row; the pointers returned, first call
    first. *)
Fixpoint allocate_n (n : nat) (pool : memory_pool) (mem : memory allocator)
    : list N * memory_pool * memory allocator :=
  match n with
  | O => ([], pool, mem)
  | S n' =>
      let '(r, pool', mem') := allocate allocator malloc pool mem in
      let '(rs, pool'', mem'') := allocate_n n' pool' mem' in
      (r :: rs, pool'', mem'')
  end.

(** [~memory_pool()]: the loop pops the free list and hands every block to
    [free].  [fuel] bounds the number of iterations; [None] means that the
    loop is still running when the fuel is used up. *)
Fixpoint destroy (fuel : nat) (pool : memory_pool) (mem : memory allocator)
    : option (memory_pool * memory allocator) :=
  if decide (m_free_list pool ≠ nullptr) then
    match fuel with
    | O => None
    | S fuel' =>
        let r := m_free_list pool in
        destroy fuel' (mk_memory_pool (m_size pool) (load allocator mem r))
          (mk_memory (first_word mem) (free r (general mem)))
    end
  else Some (pool, mem).

(** A segment of linked blocks: following the stored links from [h] visits
    the non-null blocks [rs] and arrives at [t]. *)
Inductive chain_seg (mem : memory allocator) : N -> list N -> N -> Prop :=
| chain_seg_nil h : chain_seg mem h [] h
| chain_seg_cons r rs t :
    r ≠ nullptr -> chain_seg mem (load allocator mem r) rs t ->
    chain_seg mem r (r :: rs) t.

Lemma chain_seg_store mem r v h rs t :
  r ∉ rs -> chain_seg mem h rs t -> chain_seg (store allocator mem r v) h rs t.
Proof.
  intros Hnotin Hc. induction Hc as [|r' rs t Hr' Hc IH]; [constructor|].
  apply not_elem_of_cons in Hnotin as [Hne Hnotin].
  constructor; [done|]. rewrite load_store_other by done. by apply IH.
Qed.

Lemma chain_seg_snoc mem h rs r t :
  r ≠ nullptr -> chain_seg mem h rs r -> load allocator mem r = t ->
  chain_seg mem h (rs ++ [r]) t.
Proof.
  intros Hr Hc Ht. induction Hc as [|r' rs t' Hr' Hc IH]; simpl.
  - constructor; [done|]. rewrite Ht. constructor.
  - constructor; [done|]. by apply IH.
Qed.

Lemma free_chain_seg mem h rs : free_chain allocator mem h rs <-> chain_seg mem h rs nullptr.
Proof.
  split.
  - induction 1; by constructor.
  - intros Hc. remember nullptr as t eqn:Ht.
    induction Hc as [h|r rs t Hr Hc IH]; subst; constructor; auto.
Qed.

Lemma free_chain_words mem mem' h rs :
  first_word mem' = first_word mem ->
  free_chain allocator mem h rs -> free_chain allocator mem' h rs.
Proof.
  intros Hw. induction 1 as [|r rs Hr Hc IH]; constructor; [done|].
  replace (load allocator mem' r) with (load allocator mem r); [done|].
  unfold load. by rewrite Hw.
Qed.

Lemma recycle_all_snoc bs b pool mem :
  recycle_all (bs ++ [b]) pool mem
  = recycle allocator b (recycle_all bs pool mem).1 (recycle_all bs pool mem).2.
Proof. unfold recycle_all. by rewrite foldl_app. Qed.

Lemma recycle_all_seg bs pool mem :
  NoDup bs -> Forall (fun b => b ≠ nullptr) bs ->
  m_size (recycle_all bs pool mem).1 = m_size pool /\
  chain_seg (recycle_all bs pool mem).2 (m_free_list (recycle_all bs pool mem).1)
    (rev bs) (m_free_list pool).
Proof.
  induction bs as [|b bs IH] using rev_ind; intros Hnd Hnn.
  - split; [done|constructor].
  - apply NoDup_app in Hnd as (Hnd & Hdisj & _).
    apply Forall_app in Hnn as [Hnn Hb]. apply Forall_cons in Hb as [Hb _].
    destruct (IH Hnd Hnn) as [Hsize Hseg].
    rewrite recycle_all_snoc, rev_unit. simpl. split; [done|].
    constructor; [done|]. rewrite load_store_same.
    apply chain_seg_store; [|done].
    intros Hin. apply list_elem_of_In, in_rev, list_elem_of_In in Hin.
    apply (Hdisj b Hin). by left.
Qed.

Lemma allocate_n_seg rs pool mem t :
  chain_seg mem (m_free_list pool) rs t ->
  allocate_n (length rs) pool mem = (rs, mk_memory_pool (m_size pool) t, mem).
Proof.
  intros Hc. remember (m_free_list pool) as h eqn:Hh. revert pool Hh.
  induction Hc as [h|r rs t Hr Hc IH]; intros pool Hh; simpl.
  - subst h. by destruct pool.
  - unfold allocate. rewrite <- Hh.
    destruct (decide (r ≠ nullptr)) as [_|Hn]; [|done].
    by rewrite (IH (mk_memory_pool (m_size pool) (load allocator mem r)) eq_refl).
Qed.

(** The free list is a stack.  After recycling distinct blocks, as many calls
    of [allocate] return these blocks, the one recycled last first, and the
    pool is back in the state it had before; none of the calls touches the
    store or the general allocator. *)
Theorem allocate_recycled_lifo (bs : list N) (pool : memory_pool) (mem : memory allocator) :
  NoDup bs -> Forall (fun b => b ≠ nullptr) bs ->
  allocate_n (length bs) (recycle_all bs pool mem).1 (recycle_all bs pool mem).2
  = (rev bs, pool, (recycle_all bs pool mem).2).
Proof.
  intros Hnd Hnn. destruct (recycle_all_seg bs pool mem Hnd Hnn) as [Hsize Hseg].
  rewrite <- length_rev. rewrite (allocate_n_seg _ _ _ _ Hseg), Hsize. by destruct pool.
Qed.

(** A pool whose free list holds the blocks [rs] serves the next
    [length rs] allocations from the list, in list order and without calling
    the general allocator; the allocation after these is [malloc(m_size)]. *)
Theorem allocate_drains_free_list (rs : list N) (pool : memory_pool) (mem : memory allocator) :
  free_chain allocator mem (m_free_list pool) rs ->
  allocate_n (length rs) pool mem = (rs, mk_memory_pool (m_size pool) nullptr, mem) /\
  allocate allocator malloc (mk_memory_pool (m_size pool) nullptr) mem
  = ((malloc (m_size pool) (general mem)).1, mk_memory_pool (m_size pool) nullptr,
     mk_memory (first_word mem) (malloc (m_size pool) (general mem)).2).
Proof.
  intros Hc. apply free_chain_seg in Hc. split; [by apply allocate_n_seg|].
  unfold allocate; simpl. by destruct (malloc _ _).
Qed.

Lemma destroy_words_general fuel rs h sz mem g :
  free_chain allocator mem h rs -> (length rs <= fuel)%nat ->
  destroy fuel (mk_memory_pool sz h) (mk_memory (first_word mem) g)
  = Some (mk_memory_pool sz nullptr,
          mk_memory (first_word mem) (foldl (fun g r => free r g) g rs)).
Proof.
  intros Hc. revert fuel g.
  induction Hc as [|r rs Hr Hc IH]; intros fuel g Hfuel.
  - by destruct fuel.
  - destruct fuel as [|fuel]; [simpl in Hfuel; lia|]. simpl.
    destruct (decide (r ≠ nullptr)) as [_|Hn]; [|done].
    apply IH. simpl in Hfuel. lia.
Qed.

(** The destructor releases every pooled block exactly once, in list order,
    and leaves the free list empty; it needs one iteration per block. *)
Theorem destroy_frees_pooled (rs : list N) (pool : memory_pool) (mem : memory allocator)
    (fuel : nat) :
  free_chain allocator mem (m_free_list pool) rs ->
  (length rs <= fuel)%nat ->
  destroy fuel pool mem
  = Some (mk_memory_pool (m_size pool) nullptr,
          mk_memory (first_word mem) (foldl (fun g r => free r g) (general mem) rs)).
Proof.
  intros Hc Hfuel. destruct pool as [sz h], mem as [w g].
  by apply (destroy_words_general fuel rs h sz (mk_memory w g) g).
Qed.

End PoolRuns.

Lemma allocate_recycled_lifo_witness :
  allocate_n N bump_malloc 3 (recycle_all N [64; 32; 96] (new_memory_pool 16) (mk_memory ∅ 4096)).1
    (recycle_all N [64; 32; 96] (new_memory_pool 16) (mk_memory ∅ 4096)).2
  = ([96; 32; 64], new_memory_pool 16,
     (recycle_all N [64; 32; 96] (new_memory_pool 16) (mk_memory ∅ 4096)).2).
Proof.
  apply (allocate_recycled_lifo N bump_malloc [64; 32; 96]).
  - apply (bool_decide_unpack _). by vm_compute.
  - repeat constructor; done.
Defined.

(** A store in which the free list of the pool links 96, 32 and 64. *)
Definition three_pooled {A : Type} (g : A) : memory_pool * memory A :=
  recycle_all A [64; 32; 96] (new_memory_pool 16) (mk_memory ∅ g).

Lemma three_pooled_chain {A : Type} (g : A) :
  free_chain A (three_pooled g).2 (m_free_list (three_pooled g).1) [96; 32; 64].
Proof.
  apply free_chain_seg.
  apply (recycle_all_seg A [64; 32; 96] (new_memory_pool 16) (mk_memory ∅ g)).
  - apply (bool_decide_unpack _). by vm_compute.
  - repeat constructor; done.
Qed.

Lemma allocate_drains_free_list_witness :
  allocate_n N bump_malloc 3 (three_pooled 4096).1 (three_pooled 4096).2
  = ([96; 32; 64], new_memory_pool 16, (three_pooled 4096).2) /\
  (allocate N bump_malloc (new_memory_pool 16) (three_pooled 4096).2).1.1 = 4096.
Proof.
  destruct (allocate_drains_free_list N bump_malloc [96; 32; 64] (three_pooled 4096).1
              (three_pooled 4096).2 (three_pooled_chain 4096)) as [H1 H2].
  split; [exact H1|]. change (new_memory_pool 16) with
    (mk_memory_pool (m_size (three_pooled 4096).1) nullptr). by rewrite H2.
Defined.

(** [free] of a model allocator that logs the released blocks in its state. *)
Definition log_free (r : N) (log : list N) : list N := log ++ [r].

Lemma destroy_frees_pooled_witness :
  destroy (list N) log_free 3 (three_pooled (@nil N)).1 (three_pooled (@nil N)).2
  = Some (new_memory_pool 16, mk_memory (first_word (three_pooled (@nil N)).2) [96; 32; 64]).
Proof.
  apply (destroy_frees_pooled (list N) log_free [96; 32; 64] (three_pooled (@nil N)).1
           (three_pooled (@nil N)).2 3).
  - apply three_pooled_chain.
  - simpl. lia.
Defined.


End MemoryPool.

(** * Let-binding term macros ([library/let.cpp]) *)

Module LetMacro.

Definition g_let_value : name := mk_name1 "letv".
Definition get_let_value_opcode : string := "LetV".

(** [static atomic<unsigned> g_next_let_value_id(0)]: the state is the value
    of the counter.  [atomic_fetch_add_explicit(&g, 1u, ...)] returns the old
    value and stores the incremented one, modulo the width of [unsigned]. *)
Definition g_next_let_value_id_init : N := 0.

Definition next_let_value_id (g : N) : N * N := (g, wrap_unsigned (g + 1)).

(** The effect on the counter of [k] further constructions of a let-value
    cell, by any caller. *)
Definition mint_more (k : N) (g : N) : N := N.iter k (fun g => (next_let_value_id g).2) g.

Inductive let_error : Type :=
| invalid_let_value_expression
| invalid_let_expression.

(** [let_value_definition_cell::check_macro] *)
Definition check_let_value_macro (m : expr) : option let_error :=
  if negb (is_macro m) || negb (bool_decide (macro_num_args m = 1%nat))
  then Some invalid_let_value_expression else None.

(** [let_value_definition_cell::get_type] *)
Definition let_value_get_type (m : expr) (arg_types : list expr) : let_error + option expr :=
  match check_let_value_macro m with
  | Some err => inl err
  | None => inr (arg_types !! 0%nat)
  end.

(** [let_value_definition_cell::expand] *)
Definition let_value_expand (m : expr) : let_error + option expr :=
  match check_let_value_macro m with
  | Some err => inl err
  | None => inr (macro_arg m 0)
  end.

(** [let_value_definition_cell::operator==]: the other cell is a let-value
    cell ([dynamic_cast] succeeds) with the same [m_id]. *)
Definition let_value_cell_eq (m_id : N) (other : macro_definition) : bool :=
  match other with
  | let_value_definition_cell m_id' => bool_decide (m_id = m_id')
  | _ => false
  end.

(** [let_value_definition_cell::hash] *)
Definition let_value_cell_hash (m_id : N) : N := m_id.

(** [mk_let_value]: the constructor of the cell mints the id. *)
Definition mk_let_value (e : expr) (g : N) : expr * N :=
  let '(id, g') := next_let_value_id g in
  (mk_macro (let_value_definition_cell id) [e], g').

Definition is_let_value (e : expr) : bool :=
  match e with
  | Macro (let_value_definition_cell _) _ => true
  | _ => false
  end.

Definition get_let_value_expr (e : expr) : option expr := macro_arg e 0.

(** Modelled from the spec: the kernel's equality test on terms is missing.
    Two macro nodes are equal when [operator==] of the first node's
    definition accepts the definition of the second and the two nodes have
    the same arguments.  The function below is that test with a let-value
    node on the left. *)
Definition let_value_node_eq (a b : expr) : bool :=
  match a, b with
  | Macro (let_value_definition_cell m_id) args, Macro d' args' =>
      let_value_cell_eq m_id d' && bool_decide (args = args')
  | _, _ => false
  end.

Definition g_let : name := mk_name1 "let".
Definition get_let_opcode : string := "Let".

(** [let_macro_definition_cell::check_macro] *)
Definition check_let_macro (m : expr) : option let_error :=
  if negb (is_macro m) || negb (bool_decide (macro_num_args m = 2%nat))
  then Some invalid_let_expression else None.

(** [mk_let] *)
Definition mk_let (n : name) (v b : expr) : expr :=
  mk_macro (let_macro_definition_cell n) [v; b].

Definition is_let (e : expr) : bool :=
  match e with
  | Macro (let_macro_definition_cell _) _ => true
  | _ => false
  end.

(** The counter stays a value of type [unsigned]. *)
Lemma next_let_value_id_bound g : (next_let_value_id g).2 < unsigned_modulus.
Proof. simpl. unfold wrap_unsigned. apply N.mod_lt. done. Qed.

(** [k] constructions advance the counter by [k], modulo the width. *)
Lemma mint_more_spec k g :
  g < unsigned_modulus -> mint_more k g = wrap_unsigned (g + k).
Proof.
  intros Hg. unfold mint_more. induction k as [|k IH] using N.peano_ind.
  - simpl. unfold wrap_unsigned. rewrite N.add_0_r. by rewrite N.mod_small.
  - rewrite N.iter_succ, IH. simpl. unfold wrap_unsigned.
    rewrite N.Div0.add_mod_idemp_l. f_equal. lia.
Qed.

Lemma wrap_unsigned_shift g d :
  g < unsigned_modulus -> 0 < d < unsigned_modulus -> wrap_unsigned (g + d) ≠ g.
Proof.
  intros Hg [Hd0 Hd]. unfold wrap_unsigned.
  destruct (decide (g + d < unsigned_modulus)) as [Hlt|Hge].
  - rewrite N.mod_small by done. lia.
  - assert (Heq : g + d = (g + d - unsigned_modulus) + 1 * unsigned_modulus) by lia.
    rewrite Heq, N.Div0.mod_add, N.mod_small by lia. lia.
Qed.

(** A let-value node equals itself. *)
Lemma let_value_node_eq_refl m_id args :
  let_value_node_eq (Macro (let_value_definition_cell m_id) args)
                    (Macro (let_value_definition_cell m_id) args) = true.
Proof. simpl. by rewrite !bool_decide_eq_true_2. Qed.

(** Nodes whose cells carry different ids are unequal, whatever they wrap. *)
Lemma let_value_node_eq_ids m_id m_id' args args' :
  m_id ≠ m_id' ->
  let_value_node_eq (Macro (let_value_definition_cell m_id) args)
                    (Macro (let_value_definition_cell m_id') args') = false.
Proof. intros Hne. simpl. by rewrite bool_decide_eq_false_2. Qed.

(** C7, as stated, fails once the counter wraps: the node built [2^32]
    constructions after another one carries the same id, and around the same
    sub-term it is equal to the first. *)
Lemma let_value_equal_after_wrap :
  let e := Var 0 in
  let '(n1, g1) := mk_let_value e g_next_let_value_id_init in
  let '(n2, _) := mk_let_value e (mint_more (unsigned_modulus - 1) g1) in
  let_value_node_eq n1 n2 = true.
Proof.
  cbv zeta. unfold mk_let_value, next_let_value_id.
  rewrite mint_more_spec by (by vm_compute).
  reflexivity.
Qed.

(** C7, amended. Every let-value node is equal to itself, and two nodes
    built by two separate calls of [mk_let_value] are unequal to each other,
    in both directions and whatever they wrap, as long as fewer than
    [2^32 - 1] other let-value cells are constructed between the two
    calls. *)
Theorem let_value_nominal (e1 e2 : expr) (g k : N) :
  g < unsigned_modulus ->
  k < unsigned_modulus - 1 ->
  let '(n1, g1) := mk_let_value e1 g in
  let '(n2, _) := mk_let_value e2 (mint_more k g1) in
  let_value_node_eq n1 n1 = true /\ let_value_node_eq n2 n2 = true /\
  let_value_node_eq n1 n2 = false /\ let_value_node_eq n2 n1 = false.
Proof.
  intros Hg Hk. unfold mk_let_value, next_let_value_id.
  rewrite mint_more_spec by (apply N.mod_lt; done).
  unfold mk_macro.
  assert (Hne : wrap_unsigned (wrap_unsigned (g + 1) + k) ≠ g).
  { unfold wrap_unsigned at 1. unfold wrap_unsigned at 1.
    rewrite N.Div0.add_mod_idemp_l, <- N.add_assoc.
    apply wrap_unsigned_shift; [done|]. unfold unsigned_modulus in *. lia. }
  repeat split.
  - apply let_value_node_eq_refl.
  - apply let_value_node_eq_refl.
  - apply let_value_node_eq_ids. congruence.
  - apply let_value_node_eq_ids. done.
Qed.

Lemma let_value_nominal_witness :
  let '(n1, g1) := mk_let_value (Var 0) 7 in
  let '(n2, _) := mk_let_value (Var 0) (mint_more 3 g1) in
  let_value_node_eq n1 n1 = true /\ let_value_node_eq n2 n2 = true /\
  let_value_node_eq n1 n2 = false /\ let_value_node_eq n2 n1 = false.
Proof.
  apply (let_value_nominal (Var 0) (Var 0) 7 3); by vm_compute.
Defined.

(** ** The let macro: typing, expansion and accessors *)

(** [let_macro_definition_cell::get_type] *)
Definition let_get_type (m : expr) (arg_types : list expr) : let_error + option expr :=
  match check_let_macro m with
  | Some err => inl err
  | None => inr (arg_types !! 1%nat)
  end.

(** [let_macro_definition_cell::expand] *)
Definition let_expand (m : expr) : let_error + option expr :=
  match check_let_macro m with
  | Some err => inl err
  | None => inr (macro_arg m 1)
  end.

Definition get_let_var_name (e : expr) : option name :=
  match e with
  | Macro (let_macro_definition_cell n) _ => Some n
  | _ => None
  end.

Definition get_let_value (e : expr) : option expr := macro_arg e 0.
Definition get_let_body (e : expr) : option expr := macro_arg e 1.

(** The two macros are told apart, their accessors invert their
    constructors, and they expand to the body, respectively to the wrapped
    term; the type is the type of that same argument. *)
Theorem let_macros_round_trip (n : name) (v b e : expr) (g : N) (types : list expr) :
  is_let (mk_let n v b) = true /\ is_let_value (mk_let n v b) = false /\
  get_let_var_name (mk_let n v b) = Some n /\
  get_let_value (mk_let n v b) = Some v /\ get_let_body (mk_let n v b) = Some b /\
  let_expand (mk_let n v b) = inr (Some b) /\
  let_get_type (mk_let n v b) types = inr (types !! 1%nat) /\
  is_let_value (mk_let_value e g).1 = true /\ is_let (mk_let_value e g).1 = false /\
  get_let_value_expr (mk_let_value e g).1 = Some e /\
  let_value_expand (mk_let_value e g).1 = inr (Some e) /\
  let_value_get_type (mk_let_value e g).1 types = inr (types !! 0%nat).
Proof. repeat split. Qed.

(** Typing and expansion check the number of arguments only: they fail with
    the "invalid let" error, respectively the "invalid let-value" error,
    exactly on a term that is not a macro node with two arguments,
    respectively one argument; on every other node they return the
    argument. *)
Theorem let_expand_errors (m : expr) :
  (let_expand m = inl invalid_let_expression <->
   ~ (is_macro m = true /\ macro_num_args m = 2%nat)) /\
  (let_value_expand m = inl invalid_let_value_expression <->
   ~ (is_macro m = true /\ macro_num_args m = 1%nat)) /\
  (is_macro m = true -> macro_num_args m = 2%nat ->
   exists v b, macro_args m = [v; b] /\ let_expand m = inr (Some b)) /\
  (is_macro m = true -> macro_num_args m = 1%nat ->
   exists v, macro_args m = [v] /\ let_value_expand m = inr (Some v)).
Proof.
  unfold let_expand, let_value_expand, check_let_macro, check_let_value_macro.
  split; [|split; [|split]].
  - destruct (is_macro m); simpl; [|split; [intros _ [? _]; done|done]].
    case_bool_decide as Hn; simpl; split; try done; tauto.
  - destruct (is_macro m); simpl; [|split; [intros _ [? _]; done|done]].
    case_bool_decide as Hn; simpl; split; try done; tauto.
  - intros Hm Hn. rewrite Hm. rewrite bool_decide_eq_true_2 by done. simpl.
    unfold macro_num_args, macro_arg in *.
    destruct (macro_args m) as [|v [|b [|? ?]]]; try done. by exists v, b.
  - intros Hm Hn. rewrite Hm. rewrite bool_decide_eq_true_2 by done. simpl.
    unfold macro_num_args, macro_arg in *.
    destruct (macro_args m) as [|v [|? ?]]; try done. by exists v.
Qed.

Lemma let_expand_errors_witness :
  exists v b, macro_args (mk_let (mk_name1 "x") (Var 0) (Var 1)) = [v; b] /\
              let_expand (mk_let (mk_name1 "x") (Var 0) (Var 1)) = inr (Some b).
Proof.
  apply (proj1 (proj2 (proj2 (let_expand_errors (mk_let (mk_name1 "x") (Var 0) (Var 1))))));
    reflexivity.
Defined.

End LetMacro.

(** * Parser support utilities *)

Module ParserUtil.

(** ** [std::sort] *)

(** [std::sort(first, last, comp)] rearranges a buffer into an order in which
    no element is [comp]-smaller than an earlier one; the place of elements
    that [comp] does not tell apart is unspecified.  The model is insertion
    sort; the results below only use that its output is a sorted
    rearrangement of its input. *)
Fixpoint std_sort_insert {A : Type} (comp : A -> A -> bool) (x : A) (l : list A) : list A :=
  match l with
  | [] => [x]
  | y :: l' => if comp x y then x :: l else y :: std_sort_insert comp x l'
  end.

Definition std_sort {A : Type} (comp : A -> A -> bool) (l : list A) : list A :=
  foldr (std_sort_insert comp) [] l.

(** ** The parser object *)

(** Modelled from the spec: the parser class is missing. [sort_locals] reads
    three things from the parser state: whether a local is declared in the
    parser's local table ([is_local_decl]), whether it is a section/context
    variable ([is_local_variable]), and its declaration index
    ([get_local_index]). *)
Record parser : Type := mk_parser {
  is_local_decl : expr -> bool;
  is_local_variable : expr -> bool;
  get_local_index : expr -> N
}.

(** ** [sort_locals] *)

(** The comparator, the lambda passed to [std::sort]. *)
Definition sort_locals_comp (p : parser) (p1 p2 : expr) : bool :=
  let is_var1 := is_local_variable p p1 in
  let is_var2 := is_local_variable p p2 in
  if negb is_var1 && is_var2 then true
  else if is_var1 && negb is_var2 then false
  else get_local_index p p1 <? get_local_index p p2.

(** [locals] is the content of the [expr_struct_set] in the order in which the
    loop visits it; [ps] is the buffer on entry and the result is the buffer
    on exit. *)
Definition sort_locals (locals : list expr) (p : parser) (ps : list expr) : list expr :=
  std_sort (sort_locals_comp p) (ps ++ List.filter (is_local_decl p) locals).

(** [x] stands before [y] somewhere in [l]. *)
Definition before {A : Type} (l : list A) (x y : A) : Prop :=
  exists l1 l2 l3, l = l1 ++ x :: l2 ++ y :: l3.

(** Every section/context variable comes before every ordinary local: no
    ordinary local stands before a variable. *)
Definition variables_first (p : parser) (l : list expr) : Prop :=
  forall x y, before l x y -> is_local_variable p y = true -> is_local_variable p x = true.

(** Every ordinary local comes before every section/context variable: no
    variable stands before an ordinary local. *)
Definition ordinary_first (p : parser) (l : list expr) : Prop :=
  forall x y, before l x y -> is_local_variable p x = true -> is_local_variable p y = true.

(** Within the variables, and within the ordinary locals, declaration indices
    ascend. *)
Definition groups_ascending (p : parser) (l : list expr) : Prop :=
  forall x y, before l x y -> is_local_variable p x = is_local_variable p y ->
              get_local_index p x <= get_local_index p y.

(** ** Local references *)

(** Modelled from the spec: [explicit.h] only declares these three; the
    explicit marker is a one-argument macro wrapper. *)
Definition mk_explicit (e : expr) : expr := mk_macro explicit_macro_cell [e].

Definition is_explicit (e : expr) : bool :=
  match e with
  | Macro explicit_macro_cell _ => true
  | _ => false
  end.

Definition get_explicit_arg (e : expr) : option expr := macro_arg e 0.

(** Modelled from the spec: the declarations of the as-atomic wrapper are
    missing; it is a one-argument macro wrapper like the explicit marker. *)
Definition mk_as_atomic (e : expr) : expr := mk_macro as_atomic_macro_cell [e].

Definition is_as_atomic (e : expr) : bool :=
  match e with
  | Macro as_atomic_macro_cell _ => true
  | _ => false
  end.

Definition get_as_atomic_arg (e : expr) : option expr := macro_arg e 0.

(** [mk_local_ref(n, ctx_ls, num_ctx_params, ctx_params)]; the array and its
    length are one list. *)
Definition mk_local_ref (n : name) (ctx_ls : list level) (ctx_params : list expr) : expr :=
  let params := map mk_explicit ctx_params in
  mk_as_atomic (mk_app (mk_explicit (mk_constant n ctx_ls)) params).

(** An accessor applied under its precondition; [false] stands for the
    branches the C++ code cannot take. *)
Definition test_arg (test : expr -> bool) (arg : option expr) : bool :=
  from_option test false arg.

Definition is_local_ref (e : expr) : bool :=
  if negb (is_as_atomic e) then false
  else
    match get_as_atomic_arg e with
    | None => false
    | Some imp_arg =>
        if negb (is_app imp_arg) then false
        else
          let '(f, locals) := get_app_args imp_arg [] in
          is_explicit f &&
          test_arg is_constant (get_explicit_arg f) &&
          forallb (fun l => is_explicit l && test_arg is_local (get_explicit_arg l)) locals
    end.

(** ** Universe arithmetic *)

(** Modelled from the spec: the environment class is missing;
    [mk_result_level] reads its "impredicative" flag only. *)
Record environment : Type := mk_environment {
  impredicative : bool
}.

Section ResultLevel.
(** The kernel's level normaliser and its test for levels that are never zero
    ([kernel/level.h]) are not part of the material. *)
Variable normalize : level -> level.
Variable is_not_zero : level -> bool.

Definition mk_result_level (env : environment) (r_lvls : list level) : level :=
  let impredicative := impredicative env in
  match r_lvls with
  | [] => if impredicative then mk_level_one else mk_level_zero
  | r0 :: rest =>
      let r := foldl mk_max r0 rest in
      let r := normalize r in
      if is_not_zero r then normalize r
      else if impredicative then normalize (mk_max r mk_level_one) else normalize r
  end.
End ResultLevel.

(** An implementation of the two kernel functions on levels, used to run
    [mk_result_level]: levels without parameters and metavariables are
    evaluated, the others are left alone. *)
Fixpoint level_value (l : level) : option N :=
  match l with
  | level_zero => Some 0
  | level_succ l => N.succ <$> level_value l
  | level_max l1 l2 =>
      match level_value l1, level_value l2 with
      | Some a, Some b => Some (N.max a b)
      | _, _ => None
      end
  | _ => None
  end.

Definition level_numeral (n : N) : level := N.iter n level_succ level_zero.

Definition level_normalize (l : level) : level :=
  match level_value l with
  | Some n => level_numeral n
  | None => l
  end.

Fixpoint level_is_not_zero (l : level) : bool :=
  match l with
  | level_succ _ => true
  | level_max l1 l2 => level_is_not_zero l1 || level_is_not_zero l2
  | _ => false
  end.

(** ** Properties of [std_sort] *)

Section StdSort.
Context {A : Type} (comp : A -> A -> bool).

(** [x] may stand before [y]: [y] is not [comp]-smaller than [x]. *)
Definition not_after (x y : A) : Prop := comp y x = false.

Hypothesis comp_asym : forall x y, comp x y = true -> comp y x = false.
Hypothesis not_after_trans : forall x y z, not_after x y -> not_after y z -> not_after x z.

Lemma std_sort_insert_perm x l : std_sort_insert comp x l ≡ₚ x :: l.
Proof.
  induction l as [|y l IH]; simpl; [done|].
  destruct (comp x y); [done|]. rewrite IH. apply Permutation_swap.
Qed.

Lemma std_sort_perm l : std_sort comp l ≡ₚ l.
Proof.
  induction l as [|x l IH]; simpl; [done|].
  rewrite std_sort_insert_perm. by rewrite IH.
Qed.

Lemma std_sort_insert_sorted x l :
  StronglySorted not_after l -> StronglySorted not_after (std_sort_insert comp x l).
Proof.
  induction 1 as [|y l Hs IH Hall]; simpl.
  - repeat constructor.
  - destruct (comp x y) eqn:Hxy.
    + constructor; [by constructor|].
      constructor; [by apply comp_asym|].
      eapply Forall_impl; [exact Hall|]. intros z Hyz.
      eapply not_after_trans; [|exact Hyz]. by apply comp_asym.
    + constructor; [done|].
      rewrite std_sort_insert_perm. by constructor.
Qed.

Lemma std_sort_sorted l : StronglySorted not_after (std_sort comp l).
Proof.
  induction l as [|x l IH]; simpl; [constructor|]. by apply std_sort_insert_sorted.
Qed.

Lemma sorted_before l x y : StronglySorted not_after l -> before l x y -> not_after x y.
Proof.
  intros Hs (l1 & l2 & l3 & ->). induction l1 as [|z l1 IH]; simpl in Hs.
  - apply StronglySorted_inv in Hs as [_ Hall].
    rewrite Forall_app, Forall_cons in Hall. tauto.
  - apply StronglySorted_inv in Hs as [Hs _]. by apply IH.
Qed.
End StdSort.

(** ** Properties of [sort_locals] *)

Lemma sort_locals_comp_asym p x y :
  sort_locals_comp p x y = true -> sort_locals_comp p y x = false.
Proof.
  unfold sort_locals_comp.
  destruct (is_local_variable p x), (is_local_variable p y); simpl; try done.
  all: rewrite N.ltb_lt, N.ltb_ge; lia.
Qed.

Lemma sort_locals_not_after p x y :
  not_after (sort_locals_comp p) x y <->
  (is_local_variable p x = true -> is_local_variable p y = true) /\
  (is_local_variable p x = is_local_variable p y ->
   get_local_index p x <= get_local_index p y).
Proof.
  unfold not_after, sort_locals_comp.
  destruct (is_local_variable p x), (is_local_variable p y); simpl;
    rewrite ?N.ltb_ge; intuition (done || lia).
Qed.

Lemma sort_locals_not_after_trans p x y z :
  not_after (sort_locals_comp p) x y -> not_after (sort_locals_comp p) y z ->
  not_after (sort_locals_comp p) x z.
Proof.
  rewrite !sort_locals_not_after.
  destruct (is_local_variable p x), (is_local_variable p y), (is_local_variable p z);
    intuition (done || lia).
Qed.

Lemma sort_locals_sorted locals p ps :
  StronglySorted (not_after (sort_locals_comp p)) (sort_locals locals p ps).
Proof.
  apply std_sort_sorted.
  - apply sort_locals_comp_asym.
  - apply sort_locals_not_after_trans.
Qed.

(** ** Two locals to run [sort_locals] on *)

Definition prop_sort : expr := Sort level_zero.
Definition local_x : expr := Local (mk_name1 "x") (mk_name1 "x") prop_sort bi_default.
Definition local_a : expr := Local (mk_name1 "a") (mk_name1 "a") prop_sort bi_default.
Definition local_u : expr := Local (mk_name1 "u") (mk_name1 "u") prop_sort bi_default.

(** A parser state after [variable x], [parameter a]: both are in the local
    table, [x] with index 1 and [a] with index 2, and [x] is a variable; [u]
    is not declared. *)
Definition two_locals_parser : parser := {|
  is_local_decl e := bool_decide (e = local_x) || bool_decide (e = local_a);
  is_local_variable e := bool_decide (e = local_x);
  get_local_index e :=
    if bool_decide (e = local_x) then 1 else if bool_decide (e = local_a) then 2 else 0
|}.

Example sort_locals_two :
  sort_locals [local_x; local_u; local_a] two_locals_parser [] = [local_a; local_x].
Proof. reflexivity. Qed.

(** C3, as stated, fails: with a variable [x] and an ordinary local [a], the
    ordinary local is placed first, so the variables do not come first. *)
Lemma sort_locals_not_variables_first :
  ~ variables_first two_locals_parser
      (sort_locals [local_x; local_u; local_a] two_locals_parser []).
Proof.
  intros H. specialize (H local_a local_x).
  assert (Hb : before (sort_locals [local_x; local_u; local_a] two_locals_parser [])
                 local_a local_x) by (by exists [], [], []).
  specialize (H Hb eq_refl). discriminate H.
Qed.

(** C3, amended. For every input set of locals and every parser state,
    [sort_locals] (on an empty buffer) keeps exactly the locals declared in
    the parser's local table, and orders them so that every ordinary
    (non-variable) local comes before every section/context variable, each
    of the two groups by ascending declaration index. *)
Theorem sort_locals_spec (locals : list expr) (p : parser) :
  sort_locals locals p [] ≡ₚ List.filter (is_local_decl p) locals /\
  ordinary_first p (sort_locals locals p []) /\
  groups_ascending p (sort_locals locals p []).
Proof.
  split; [apply std_sort_perm|].
  pose proof (sort_locals_sorted locals p []) as Hs.
  split; intros x y Hb.
  - eapply sorted_before in Hb; [|exact Hs]. by apply sort_locals_not_after in Hb as [? _].
  - eapply sorted_before in Hb; [|exact Hs]. by apply sort_locals_not_after in Hb as [_ ?].
Qed.

(** ** Properties of [mk_local_ref] and [is_local_ref] *)

Lemma mk_app_snoc f args a : mk_app f (args ++ [a]) = App (mk_app f args) a.
Proof. unfold mk_app. by rewrite foldl_app. Qed.

Lemma get_app_rev_args_mk_app f args :
  is_app f = false -> get_app_rev_args (mk_app f args) = (f, rev args).
Proof.
  intros Hf. induction args as [|a args IH] using rev_ind.
  - simpl. by destruct f.
  - rewrite mk_app_snoc. simpl. rewrite IH. by rewrite rev_unit.
Qed.

Lemma get_app_args_mk_app f args :
  is_app f = false -> get_app_args (mk_app f args) [] = (f, args).
Proof.
  intros Hf. unfold get_app_args. rewrite get_app_rev_args_mk_app by done.
  by rewrite rev_involutive.
Qed.

Lemma is_app_mk_app f args :
  is_app f = false -> is_app (mk_app f args) = negb (bool_decide (args = [])).
Proof.
  intros Hf. destruct args as [|a args _] using rev_ind; [done|].
  rewrite mk_app_snoc. simpl. symmetry. apply negb_true_iff, bool_decide_eq_false_2.
  by destruct args.
Qed.

Lemma explicit_params_recognised ps :
  Forall (fun l => is_local l = true) ps ->
  forallb (fun l => is_explicit l && test_arg is_local (get_explicit_arg l))
          (map mk_explicit ps) = true.
Proof.
  induction 1 as [|l ps Hl _ IH]; [done|]. simpl in *. by rewrite Hl, IH.
Qed.

(** C5, as stated, fails on the empty parameter list: the reference is then
    the wrapped constant itself, which is not an application. *)
Lemma is_local_ref_no_params :
  is_local_ref (mk_local_ref (mk_name1 "f") [] []) = false.
Proof. reflexivity. Qed.

(** C5, amended. For every name, every list of universe levels and every
    list [ps] of local constants, [is_local_ref] returns true on
    [mk_local_ref(n, ls, ps)] when [ps] is not empty, and false when it is
    empty. *)
Theorem is_local_ref_mk_local_ref (n : name) (ls : list level) (ps : list expr) :
  Forall (fun l => is_local l = true) ps ->
  is_local_ref (mk_local_ref n ls ps) = negb (bool_decide (ps = [])).
Proof.
  intros Hps. unfold is_local_ref, mk_local_ref. simpl.
  rewrite is_app_mk_app by done.
  destruct ps as [|p ps]; [done|]. simpl negb. cbv iota.
  rewrite get_app_args_mk_app by done.
  rewrite explicit_params_recognised by done. done.
Qed.

Lemma is_local_ref_mk_local_ref_witness :
  is_local_ref (mk_local_ref (mk_name1 "f") [level_zero] [local_x; local_a]) = true.
Proof.
  apply (is_local_ref_mk_local_ref (mk_name1 "f") [level_zero] [local_x; local_a]).
  repeat constructor.
Defined.

(** ** Properties of [mk_result_level] *)

(** C8. With no domain levels the result is level one under an impredicative
    environment and level zero under a predicative one.  With the single
    domain level zero it is again level one, respectively level zero, given
    that the kernel's normaliser leaves zero alone and turns [max 0 1] into
    one, and that zero is not reported as never-zero. *)
Theorem mk_result_level_small
    (normalize : level -> level) (is_not_zero : level -> bool) :
  normalize mk_level_zero = mk_level_zero ->
  normalize (mk_max mk_level_zero mk_level_one) = mk_level_one ->
  is_not_zero mk_level_zero = false ->
  mk_result_level normalize is_not_zero (mk_environment true) [] = mk_level_one /\
  mk_result_level normalize is_not_zero (mk_environment false) [] = mk_level_zero /\
  mk_result_level normalize is_not_zero (mk_environment true) [mk_level_zero]
  = mk_level_one /\
  mk_result_level normalize is_not_zero (mk_environment false) [mk_level_zero]
  = mk_level_zero.
Proof.
  intros Hzero Hmax Hnz. unfold mk_result_level; simpl.
  rewrite !Hzero, Hnz, Hmax. done.
Qed.

Lemma mk_result_level_small_witness :
  mk_result_level level_normalize level_is_not_zero (mk_environment true) []
  = mk_level_one /\
  mk_result_level level_normalize level_is_not_zero (mk_environment false) []
  = mk_level_zero /\
  mk_result_level level_normalize level_is_not_zero (mk_environment true) [mk_level_zero]
  = mk_level_one /\
  mk_result_level level_normalize level_is_not_zero (mk_environment false) [mk_level_zero]
  = mk_level_zero.
Proof.
  apply (mk_result_level_small level_normalize level_is_not_zero); reflexivity.
Defined.

(** A level that is never zero is left as it is in both modes. *)
Example mk_result_level_one :
  mk_result_level level_normalize level_is_not_zero (mk_environment true)
    [mk_level_zero; mk_level_one] = mk_level_one /\
  mk_result_level level_normalize level_is_not_zero (mk_environment false)
    [mk_level_zero; mk_level_one] = mk_level_one.
Proof. split; reflexivity. Qed.

(** ** In-place filtering of a buffer *)

(** The loop
    [for (i = 0; i < buf.size(); i++) if (keep(buf[i])) { buf[j] = buf[i]; j++; }],
    with [n] iterations to go; the result is the buffer and [j]. *)
Fixpoint compact_loop {A : Type} (keep : A -> bool) (n i j : nat) (buf : list A)
    : list A * nat :=
  match n with
  | O => (buf, j)
  | S n' =>
      match buf !! i with
      | Some x =>
          if keep x then compact_loop keep n' (S i) (S j) (<[j := x]> buf)
          else compact_loop keep n' (S i) j buf
      | None => (buf, j)
      end
  end.

(** The loop followed by [buf.shrink(j)]. *)
Definition compact {A : Type} (keep : A -> bool) (buf : list A) : list A :=
  let '(buf', j) := compact_loop keep (length buf) 0 0 buf in take j buf'.

(** [remove_local_vars(parser const &, buffer<expr> &)] *)
Definition remove_local_vars (p : parser) (locals : list expr) : list expr :=
  compact (fun param => negb (is_local param) || negb (is_local_variable p param)) locals.

(** ** [update_local_ref] *)

Definition update_constant (c : expr) (ls : list level) : expr :=
  match c with
  | Constant n _ => Constant n ls
  | _ => c
  end.

Definition const_levels (c : expr) : list level :=
  match c with
  | Constant _ ls => ls
  | _ => []
  end.

Section UpdateLocalRef.
(** The test for placeholder levels ([library/placeholder.h]) is not part of
    the material. *)
Variable is_placeholder : level -> bool.

(** The level filter of [update_local_ref]. *)
Definition keep_level (lvls_to_remove : gset name) (l : level) : bool :=
  is_placeholder l ||
  match l with
  | level_param n => negb (bool_decide (n ∈ lvls_to_remove))
  | _ => false
  end.

(** The test of the loop over the arguments; an argument without explicit
    marker does not occur under the precondition [is_local_ref(e)]. *)
Definition keep_local_arg (locals_to_remove : gset name) (l : expr) : bool :=
  match get_explicit_arg l with
  | Some a => negb (bool_decide (mlocal_name a ∈ locals_to_remove))
  | None => true
  end.

(** [None] stands for a failed precondition of an accessor. *)
Definition update_local_ref (e : expr) (lvls_to_remove locals_to_remove : gset name)
    : option expr :=
  if bool_decide (locals_to_remove = ∅) && bool_decide (lvls_to_remove = ∅) then Some e
  else
    match get_as_atomic_arg e with
    | None => None
    | Some imp_arg =>
        let '(f, locals) := get_app_args imp_arg [] in
        let new_f : option expr :=
          if negb (bool_decide (lvls_to_remove = ∅)) then
            match get_explicit_arg f with
            | Some c =>
                Some (mk_explicit
                        (update_constant c
                           (List.filter (keep_level lvls_to_remove) (const_levels c))))
            | None => None
            end
          else Some f in
        let locals :=
          if negb (bool_decide (locals_to_remove = ∅))
          then compact (keep_local_arg locals_to_remove) locals
          else locals in
        match new_f, locals with
        | None, _ => None
        | Some new_f, [] => get_explicit_arg new_f
        | Some new_f, _ :: _ => Some (mk_as_atomic (mk_app new_f locals))
        end
    end.
End UpdateLocalRef.

(** ** [collect_local_nonvar_levels] *)

Section LocalLevels.
(** The parser's table of local universe levels. *)
Variable get_local_level_index : name -> option N.
Variable is_local_level_variable : name -> bool.

Definition local_nonvar_level (l : name) : bool :=
  bool_decide (is_Some (get_local_level_index l)) && negb (is_local_level_variable l).

Fixpoint collect_local_nonvar_levels (ls : list name) : list level :=
  match ls with
  | [] => []
  | l :: ls' =>
      if local_nonvar_level l then mk_param_univ l :: collect_local_nonvar_levels ls'
      else []
  end.

(** [remove_local_vars(parser const &, levels const &)] *)
Definition remove_local_level_vars (ls : list level) : list level :=
  List.filter
    (fun l => match l with
              | level_param n => negb (is_local_level_variable n)
              | _ => true
              end) ls.
End LocalLevels.

(** ** [occurs] *)




(** ** Properties of the in-place filter *)

Lemma compact_loop_spec {A : Type} (keep : A -> bool) (orig : list A) n :
  forall i j buf,
    (i + n = length orig)%nat -> length buf = length orig -> (j <= i)%nat ->
    drop i buf = drop i orig -> take j buf = List.filter keep (take i orig) ->
    take (compact_loop keep n i j buf).2 (compact_loop keep n i j buf).1
    = List.filter keep orig.
Proof.
  induction n as [|n IH]; intros i j buf Hlen Hbuf Hji Hdrop Htake; simpl.
  - rewrite Htake. f_equal. apply take_ge. lia.
  - assert (Hi : (i < length orig)%nat) by lia.
    destruct (lookup_lt_is_Some_2 orig i Hi) as [x Hx].
    assert (Hbx : buf !! i = Some x).
    { rewrite <- (Nat.add_0_r i), <- lookup_drop, Hdrop, lookup_drop, Nat.add_0_r. done. }
    rewrite Hbx.
    assert (Hsplit : take (S i) orig = take i orig ++ [x]) by (by apply take_S_r).
    destruct (keep x) eqn:Hk.
    + apply IH.
      * lia.
      * by rewrite length_insert.
      * lia.
      * rewrite drop_insert_lt by lia.
        replace (S i) with (i + 1)%nat by lia. rewrite <- !drop_drop. by rewrite Hdrop.
      * rewrite Hsplit, List.filter_app. simpl. rewrite Hk, <- Htake.
        rewrite (take_S_r _ j x) by (apply list_lookup_insert_eq; lia).
        by rewrite take_insert_ge.
    + apply IH; [lia|done|lia| |].
      * replace (S i) with (i + 1)%nat by lia. rewrite <- !drop_drop. by rewrite Hdrop.
      * rewrite Hsplit, List.filter_app. simpl. by rewrite Hk, app_nil_r.
Qed.

Lemma compact_filter {A : Type} (keep : A -> bool) (buf : list A) :
  compact keep buf = List.filter keep buf.
Proof.
  unfold compact.
  pose proof (compact_loop_spec keep buf (length buf) 0 0 buf) as H.
  destruct (compact_loop keep (length buf) 0 0 buf) as [buf' j]. apply H; done.
Qed.

(** [remove_local_vars] on a buffer is a filter: it keeps, in their order,
    exactly the entries that are not local constants registered as
    section/context variables, and drops the others. *)
Theorem remove_local_vars_filter (p : parser) (locals : list expr) :
  remove_local_vars p locals
  = List.filter (fun e => negb (is_local e && is_local_variable p e)) locals.
Proof.
  unfold remove_local_vars. rewrite compact_filter.
  apply List.filter_ext. intros e. by rewrite negb_andb.
Qed.

(** ** Properties of [update_local_ref] *)

Lemma filter_explicit_args locs ps :
  List.filter (keep_local_arg locs) (map mk_explicit ps)
  = map mk_explicit (List.filter (fun p => negb (bool_decide (mlocal_name p ∈ locs))) ps).
Proof.
  induction ps as [|p ps IH]; [done|]. simpl. unfold keep_local_arg at 1. simpl.
  destruct (negb _); simpl; by rewrite IH.
Qed.

Lemma filter_nothing_removed (ps : list expr) :
  List.filter (fun p => negb (bool_decide (mlocal_name p ∈ (∅ : gset name)))) ps = ps.
Proof.
  induction ps as [|p ps IH]; [done|]. cbn [List.filter].
  rewrite bool_decide_eq_false_2 by set_solver. cbn [negb]. by rewrite IH.
Qed.

Lemma local_ref_recognised n ls ps :
  Forall (fun l => is_local l = true) ps ->
  is_local_ref (mk_local_ref n ls ps) = negb (bool_decide (ps = [])).
Proof.
  intros Hps. unfold is_local_ref, mk_local_ref. simpl.
  rewrite is_app_mk_app by done.
  destruct ps as [|p ps]; [done|]. simpl negb. cbv iota.
  rewrite get_app_args_mk_app by done.
  by rewrite explicit_params_recognised.
Qed.

Lemma Forall_list_filter {A : Type} (P : A -> Prop) (f : A -> bool) (l : list A) :
  Forall P l -> Forall P (List.filter f l).
Proof.
  induction 1 as [|x l Hx _ IH]; simpl; [constructor|].
  destruct (f x); [by constructor|done].
Qed.

(** [update_local_ref] on a reference built by [mk_local_ref]: with two empty
    removal sets the reference is returned as it is.  Otherwise the
    arguments named in [locals_to_remove] are dropped, the others stay in
    their order; if [lvls_to_remove] is not empty, the universe levels that
    remain are the placeholders and the parameters not named in it (any
    other level is dropped too).  The result is the bare constant when no
    argument is left, and otherwise a reference that [is_local_ref]
    recognises. *)
Theorem update_local_ref_mk_local_ref (is_placeholder : level -> bool) (n : name)
    (ls : list level) (ps : list expr) (lvls locs : gset name) :
  is_local_ref (mk_local_ref n ls ps) = true ->
  Forall (fun p => is_local p = true) ps ->
  let ls' := if bool_decide (lvls = ∅) then ls
             else List.filter (keep_level is_placeholder lvls) ls in
  let ps' := List.filter (fun p => negb (bool_decide (mlocal_name p ∈ locs))) ps in
  let r := match ps' with
           | [] => mk_constant n ls'
           | _ :: _ => mk_local_ref n ls' ps'
           end in
  update_local_ref is_placeholder (mk_local_ref n ls ps) lvls locs
  = Some (if bool_decide (locs = ∅) && bool_decide (lvls = ∅)
          then mk_local_ref n ls ps else r) /\
  is_local_ref r = negb (bool_decide (ps' = [])).
Proof.
  intros Href Hps ls' ps' r. split.
  - unfold update_local_ref.
    destruct (bool_decide (locs = ∅) && bool_decide (lvls = ∅)) eqn:Hempty; [done|].
    unfold mk_local_ref at 1. cbn [get_as_atomic_arg mk_as_atomic mk_macro macro_arg macro_args
                                     lookup list_lookup].
    rewrite get_app_args_mk_app by done.
    assert (Hlocals : (if negb (bool_decide (locs = ∅))
                       then compact (keep_local_arg locs) (map mk_explicit ps)
                       else map mk_explicit ps) = map mk_explicit ps').
    { subst ps'. rewrite compact_filter, filter_explicit_args.
      case_bool_decide as Hl; simpl; [|done]. subst locs. by rewrite filter_nothing_removed. }
    rewrite Hlocals. subst r ls'.
    destruct (bool_decide (lvls = ∅)); simpl; by destruct ps'.
  - subst r. assert (Hps' : Forall (fun l => is_local l = true) ps')
      by (by apply Forall_list_filter).
    destruct ps' as [|p' ps'']; [done|]. by rewrite local_ref_recognised.
Qed.

Lemma two_locals_are_local : Forall (fun p => is_local p = true) [local_x; local_a].
Proof. repeat constructor. Qed.

Lemma update_local_ref_mk_local_ref_witness :
  update_local_ref (fun _ : level => false)
    (mk_local_ref (mk_name1 "n") [] [local_x; local_a]) ∅ {[ mk_name1 "x" ]}
  = Some (mk_local_ref (mk_name1 "n") [] [local_a]) /\
  update_local_ref (fun _ : level => false)
    (mk_local_ref (mk_name1 "n") [] [local_x; local_a]) ∅ {[ mk_name1 "x"; mk_name1 "a" ]}
  = Some (mk_constant (mk_name1 "n") []).
Proof.
  split.
  - refine (eq_trans (proj1 (update_local_ref_mk_local_ref (fun _ : level => false)
                      (mk_name1 "n") []
                      [local_x; local_a] ∅ {[ mk_name1 "x" ]} eq_refl two_locals_are_local)) _).
    by vm_compute.
  - refine (eq_trans (proj1 (update_local_ref_mk_local_ref (fun _ : level => false)
                      (mk_name1 "n") []
                      [local_x; local_a] ∅ {[ mk_name1 "x"; mk_name1 "a" ]} eq_refl
                      two_locals_are_local)) _).
    by vm_compute.
Defined.

(** ** Properties of [collect_local_nonvar_levels] *)

(** [collect_local_nonvar_levels] returns the parameters for the longest
    prefix of the names that are all local and not variables: it stops at
    the first name that is not, and a name behind that one is not collected
    even if it is local and not a variable. *)
Theorem collect_local_nonvar_levels_prefix (get_local_level_index : name -> option N)
    (is_local_level_variable : name -> bool) (ls : list name) :
  let good := local_nonvar_level get_local_level_index is_local_level_variable in
  exists k,
    collect_local_nonvar_levels get_local_level_index is_local_level_variable ls
    = map mk_param_univ (take k ls) /\
    Forall (fun l => good l = true) (take k ls) /\
    (forall l, ls !! k = Some l -> good l = false).
Proof.
  intros good. induction ls as [|l ls (k & Heq & Hall & Hstop)]; simpl.
  - exists O. by repeat split.
  - fold good. destruct (good l) eqn:Hl.
    + exists (S k). simpl. rewrite Heq. repeat split; [by constructor|done].
    + exists O. simpl. repeat split; [constructor|]. by intros l' [= <-].
Qed.

(** ** Properties of [occurs] *)





(** ** Collecting the locals of a term *)

(** Modelled from the spec: the kernel's [for_each] on terms is missing; it
    visits a term top-down and enters the children (the type of a local
    constant or metavariable included) where the function returns true. *)
Fixpoint for_each {S : Type} (f : expr -> N -> S -> bool * S) (e : expr) (offset : N) (s : S)
    : S :=
  let '(enter, s) := f e offset s in
  if enter then
    match e with
    | Var _ | Sort _ | Constant _ _ => s
    | Meta _ t | Local _ _ t _ => for_each f t offset s
    | App g a => for_each f a offset (for_each f g offset s)
    | Lambda _ d b _ | Pi _ d b _ => for_each f b (offset + 1) (for_each f d offset s)
    | Macro _ args => foldl (fun s a => for_each f a offset s) s args
    end
  else s.

(** [expr_struct_set::insert]; the set is the list of its elements in the
    order of their first insertion. *)
Definition set_insert (e : expr) (ls : list expr) : list expr :=
  if bool_decide (e ∈ ls) then ls else ls ++ [e].

Section CollectLocals.
(** The test for tactic blocks ([is_by], [library/tactic/expr_to_tactic.h])
    is not part of the material. *)
Variable is_by : expr -> bool.

(** The function passed to [for_each]. *)
Definition collect_fn (e : expr) (offset : N) (ls : list expr) : bool * list expr :=
  if negb (has_local e) then (false, ls)
  else if is_by e then (false, ls)
  else if is_local e then (true, set_insert e ls)
  else (true, ls).

Definition collect_locals_ignoring_tactics (e : expr) (ls : list expr) : list expr :=
  if negb (has_local e) then ls else for_each collect_fn e 0 ls.

(** [collect_locals]; [include_vars] is what [p.get_include_variables]
    puts into its buffer, [ctx_ps] the output buffer on entry. *)
Definition collect_locals (type value : expr) (p : parser) (include_vars : list expr)
    (ctx_ps : list expr) : list expr :=
  let ls := foldl (fun ls param =>
                     set_insert param (collect_locals_ignoring_tactics (mlocal_type param) ls))
              [] include_vars in
  let ls := collect_locals_ignoring_tactics type ls in
  let ls := collect_locals_ignoring_tactics value ls in
  sort_locals ls p ctx_ps.

Definition locals_to_context (e : expr) (p : parser) : list expr :=
  rev (sort_locals (collect_locals_ignoring_tactics e []) p []).

(** [x] is a local constant that occurs in [e] outside of tactic blocks. *)
Fixpoint occurs_local (x e : expr) : bool :=
  negb (is_by e) &&
  match e with
  | Var _ | Sort _ | Constant _ _ => false
  | Local _ _ t _ => bool_decide (e = x) || occurs_local x t
  | Meta _ t => occurs_local x t
  | App g a => occurs_local x g || occurs_local x a
  | Lambda _ d b _ | Pi _ d b _ => occurs_local x d || occurs_local x b
  | Macro _ args => existsb (occurs_local x) args
  end.

Lemma elem_of_set_insert x e ls : x ∈ set_insert e ls <-> x = e \/ x ∈ ls.
Proof.
  unfold set_insert. case_bool_decide as He.
  - split; [by right|]. intros [->|?]; done.
  - rewrite elem_of_app, list_elem_of_singleton. tauto.
Qed.

Lemma NoDup_set_insert e ls : NoDup ls -> NoDup (set_insert e ls).
Proof.
  intros Hnd. unfold set_insert. case_bool_decide as He; [done|].
  apply NoDup_app. repeat split; [done| |apply NoDup_singleton].
  intros x Hx ->%list_elem_of_singleton. done.
Qed.

Lemma has_local_occurs_local x e : has_local e = false -> occurs_local x e = false.
Proof.
  induction e as [| | |n t IH|n pp t bi IH|f a IHf IHa|n d b bi IHd IHb|n d b bi IHd IHb
                  |d args IH] using expr_ind; simpl; intros Hl;
    rewrite ?andb_false_r; try done.
  - by rewrite IH, andb_false_r.
  - apply orb_false_elim in Hl as [? ?]. by rewrite IHf, IHa, andb_false_r.
  - apply orb_false_elim in Hl as [? ?]. by rewrite IHd, IHb, andb_false_r.
  - apply orb_false_elim in Hl as [? ?]. by rewrite IHd, IHb, andb_false_r.
  - assert (Hargs : existsb (occurs_local x) args = false).
    { induction IH as [|y args Hy _ IHargs]; simpl in *; [done|].
      apply orb_false_elim in Hl as [? ?]. by rewrite Hy, IHargs. }
    by rewrite Hargs, andb_false_r.
Qed.

Lemma occurs_local_by x e : is_by e = true -> occurs_local x e = false.
Proof. intros Hby. destruct e; simpl; by rewrite Hby. Qed.

Lemma for_each_pruned e offset acc :
  has_local e = false \/ is_by e = true -> for_each collect_fn e offset acc = acc.
Proof.
  intros H. destruct e; cbn [for_each]; unfold collect_fn;
    destruct H as [-> | ->]; simpl; try done; by destruct (negb _).
Qed.

Lemma for_each_entered e offset acc :
  has_local e = true -> is_by e = false ->
  for_each collect_fn e offset acc
  = match e with
    | Var _ | Sort _ | Constant _ _ => acc
    | Meta _ t => for_each collect_fn t offset acc
    | Local _ _ t _ => for_each collect_fn t offset (set_insert e acc)
    | App g a => for_each collect_fn a offset (for_each collect_fn g offset acc)
    | Lambda _ d b _ | Pi _ d b _ =>
        for_each collect_fn b (offset + 1) (for_each collect_fn d offset acc)
    | Macro _ args => foldl (fun s a => for_each collect_fn a offset s) acc args
    end.
Proof.
  intros Hl Hby. destruct e; cbn [for_each]; unfold collect_fn at 1;
    rewrite Hl, Hby; done.
Qed.

Lemma for_each_collect x e :
  forall offset acc,
    x ∈ for_each collect_fn e offset acc <-> x ∈ acc \/ occurs_local x e = true.
Proof.
  induction e as [| | |n t IH|n pp t bi IH|f a IHf IHa|n d b bi IHd IHb|n d b bi IHd IHb
                  |d args IH] using expr_ind; intros offset acc;
    match goal with
    | |- context [for_each collect_fn ?e _ _] =>
        destruct (has_local e) eqn:Hl;
        [destruct (is_by e) eqn:Hby;
         [rewrite for_each_pruned by (by right);
          rewrite (occurs_local_by x e Hby); intuition discriminate
         |rewrite (for_each_entered e offset acc Hl Hby)]
        |rewrite for_each_pruned by (by left);
         rewrite (has_local_occurs_local x e Hl); intuition discriminate]
    end; try (simpl in Hl; discriminate Hl); cbn [occurs_local]; rewrite Hby; cbn [negb andb].
  - by apply IH.
  - rewrite IH, elem_of_set_insert, orb_true_iff, bool_decide_eq_true.
    intuition congruence.
  - rewrite IHa, IHf, orb_true_iff. tauto.
  - rewrite IHb, IHd, orb_true_iff. tauto.
  - rewrite IHb, IHd, orb_true_iff. tauto.
  - clear Hl Hby. revert acc.
    induction IH as [|y args Hy _ IHargs]; intros acc; simpl; [intuition discriminate|].
    rewrite IHargs, Hy, orb_true_iff. tauto.
Qed.

Lemma NoDup_for_each e :
  forall offset acc, NoDup acc -> NoDup (for_each collect_fn e offset acc).
Proof.
  induction e as [| | |n t IH|n pp t bi IH|f a IHf IHa|n d b bi IHd IHb|n d b bi IHd IHb
                  |d args IH] using expr_ind; intros offset acc Hnd;
    match goal with
    | |- context [for_each collect_fn ?e _ _] =>
        destruct (has_local e) eqn:Hl;
        [destruct (is_by e) eqn:Hby;
         [by rewrite for_each_pruned by (by right)
         |rewrite (for_each_entered e offset acc Hl Hby)]
        |by rewrite for_each_pruned by (by left)]
    end; try (simpl in Hl; discriminate Hl); auto.
  - apply IH. by apply NoDup_set_insert.
  - clear Hl Hby. revert acc Hnd.
    induction IH as [|y args Hy _ IHargs]; intros acc Hnd; simpl; auto.
Qed.

Lemma collect_locals_ignoring_tactics_elem x e ls :
  x ∈ collect_locals_ignoring_tactics e ls <-> x ∈ ls \/ occurs_local x e = true.
Proof.
  unfold collect_locals_ignoring_tactics. destruct (has_local e) eqn:Hl; simpl.
  - apply for_each_collect.
  - rewrite (has_local_occurs_local x e Hl). intuition discriminate.
Qed.

Lemma collect_locals_ignoring_tactics_NoDup e ls :
  NoDup ls -> NoDup (collect_locals_ignoring_tactics e ls).
Proof.
  intros Hnd. unfold collect_locals_ignoring_tactics. destruct (has_local e); simpl; [|done].
  by apply NoDup_for_each.
Qed.

Lemma before_rev {A : Type} (l : list A) x y : before (rev l) x y -> before l y x.
Proof.
  intros (l1 & l2 & l3 & Heq). exists (rev l3), (rev l2), (rev l1).
  rewrite <- (rev_involutive l), Heq.
  rewrite rev_app_distr. simpl. rewrite rev_app_distr. simpl.
  by rewrite <- !app_assoc.
Qed.

(** [locals_to_context] returns, each once, the local constants that occur
    in the term outside of tactic blocks and are declared in the parser's
    local table.  In the result every section/context variable comes before
    every ordinary local, and within each of the two groups the declaration
    indices descend. *)
Theorem locals_to_context_spec (e : expr) (p : parser) :
  (forall x, x ∈ locals_to_context e p <->
             occurs_local x e = true /\ is_local_decl p x = true) /\
  NoDup (locals_to_context e p) /\
  variables_first p (locals_to_context e p) /\
  (forall x y, before (locals_to_context e p) x y ->
               is_local_variable p x = is_local_variable p y ->
               get_local_index p y <= get_local_index p x).
Proof.
  unfold locals_to_context.
  pose proof (std_sort_perm (sort_locals_comp p)
                ([] ++ List.filter (is_local_decl p) (collect_locals_ignoring_tactics e [])))
    as Hperm. fold (sort_locals (collect_locals_ignoring_tactics e []) p []) in Hperm.
  simpl in Hperm.
  pose proof (sort_locals_sorted (collect_locals_ignoring_tactics e []) p []) as Hs.
  split; [|split; [|split]].
  - intros x. split.
    + intros Hx. apply list_elem_of_In, in_rev, list_elem_of_In in Hx.
      rewrite Hperm in Hx. apply list_elem_of_In, List.filter_In in Hx as [Hx Hd].
      split; [|done].
      apply list_elem_of_In, collect_locals_ignoring_tactics_elem in Hx as [Hx|Hx]; [|done].
      by apply not_elem_of_nil in Hx.
    + intros [Hocc Hdecl]. apply list_elem_of_In. rewrite <- in_rev. apply list_elem_of_In.
      rewrite Hperm. apply list_elem_of_In, List.filter_In. split; [|done].
      apply list_elem_of_In, collect_locals_ignoring_tactics_elem. by right.
  - apply NoDup_ListNoDup, List.NoDup_rev, NoDup_ListNoDup. rewrite Hperm.
    apply NoDup_ListNoDup, List.NoDup_filter, NoDup_ListNoDup.
    apply collect_locals_ignoring_tactics_NoDup, NoDup_nil_2.
  - intros x y Hb%before_rev Hy.
    eapply sorted_before in Hb; [|exact Hs]. apply sort_locals_not_after in Hb as [Hb _]. auto.
  - intros x y Hb%before_rev Hxy.
    eapply sorted_before in Hb; [|exact Hs]. apply sort_locals_not_after in Hb as [_ Hb]. auto.
Qed.

(** [collect_locals] (on an empty buffer) returns exactly the locals declared
    in the parser's table that are an include variable, or occur outside of
    tactic blocks in the type of an include variable, in [type] or in
    [value]. *)
Theorem collect_locals_elem (type value : expr) (p : parser) (include_vars : list expr)
    (x : expr) :
  x ∈ collect_locals type value p include_vars [] <->
  is_local_decl p x = true /\
  (x ∈ include_vars \/
   (exists v, v ∈ include_vars /\ occurs_local x (mlocal_type v) = true) \/
   occurs_local x type = true \/ occurs_local x value = true).
Proof.
  unfold collect_locals.
  set (step := fun ls param =>
                 set_insert param (collect_locals_ignoring_tactics (mlocal_type param) ls)).
  assert (Hfold : forall vs ls,
    x ∈ foldl step ls vs <->
    x ∈ ls \/ x ∈ vs \/ exists v, v ∈ vs /\ occurs_local x (mlocal_type v) = true).
  { induction vs as [|v vs IH]; intros ls; simpl.
    - split; [by left|].
      intros [?|[Hx|(v & Hv & _)]];
        [done|by apply not_elem_of_nil in Hx|by apply not_elem_of_nil in Hv].
    - rewrite IH. subst step. cbv beta.
      rewrite elem_of_set_insert, collect_locals_ignoring_tactics_elem. split.
      + intros [[->|[H|H]]|[H|(w & Hw & Ho)]].
        * right. left. by left.
        * by left.
        * right. right. exists v. split; [by left|done].
        * right. left. by right.
        * right. right. exists w. split; [by right|done].
      + intros [H|[H|(w & Hw & Ho)]].
        * left. right. by left.
        * apply elem_of_cons in H as [->|H]; [left; by left|right; by left].
        * apply elem_of_cons in Hw as [->|Hw].
          -- left. right. by right.
          -- right. right. by exists w. }
  pose proof (std_sort_perm (sort_locals_comp p)
                ([] ++ List.filter (is_local_decl p)
                         (collect_locals_ignoring_tactics value
                            (collect_locals_ignoring_tactics type (foldl step [] include_vars)))))
    as Hperm.
  unfold sort_locals. rewrite Hperm. simpl.
  rewrite list_elem_of_In, List.filter_In, <- list_elem_of_In.
  rewrite !collect_locals_ignoring_tactics_elem, Hfold.
  split.
  - intros [[[[Hx|H]|H]|H] Hd]; [by apply not_elem_of_nil in Hx|tauto..].
  - intros [Hd [H|[H|[H|H]]]]; tauto.
Qed.
End CollectLocals.

(** ** Fresh universe parameters *)

(** Modelled from the spec: [name::append_after] is missing; new universe
    parameters are named "l_<n>". *)
Definition l_name (idx : N) : name := mk_name1 ("l_" +:+ decimal idx).

(** The members of [univ_metavars_to_params_fn] that [mk_new_univ_param]
    updates. *)
Record univ_params : Type := mk_univ_params {
  m_params : gset name;
  m_new_params : list name;
  m_next_idx : N
}.

Section NewUnivParam.
(** The names of the local universe levels ([m_lls]) and of the global
    universes of the environment ([m_env.is_universe]). *)
Variable m_lls : gset name.
Variable universes : gset name.

(** The condition of the loop. *)
Definition univ_name_taken (params : gset name) (r : name) : bool :=
  bool_decide (r ∈ m_lls) || bool_decide (r ∈ params) || bool_decide (r ∈ universes).

(** The loop of [mk_new_univ_param]: the index at which it stops.  [fuel]
    bounds the number of iterations; [None] means that the loop is still
    running when the fuel is used up. *)
Fixpoint first_free_idx (fuel : nat) (params : gset name) (idx : N) : option N :=
  if univ_name_taken params (l_name idx) then
    match fuel with
    | O => None
    | S fuel' => first_free_idx fuel' params (wrap_unsigned (idx + 1))
    end
  else Some idx.

Definition mk_new_univ_param (fuel : nat) (st : univ_params) : option (level * univ_params) :=
  match first_free_idx fuel (m_params st) (m_next_idx st) with
  | Some idx =>
      let r := l_name idx in
      Some (mk_param_univ r,
            mk_univ_params ({[ r ]} ∪ m_params st) (m_new_params st ++ [r]) idx)
  | None => None
  end.
End NewUnivParam.

Lemma decimal_inj i j : decimal i = decimal j -> i = j.
Proof.
  unfold decimal. intros H.
  assert (Hu : N.to_uint i = N.to_uint j).
  { apply (f_equal NilEmpty.uint_of_string) in H. rewrite !NilEmpty.usu in H. congruence. }
  rewrite <- (DecimalN.Unsigned.of_to i), <- (DecimalN.Unsigned.of_to j). by rewrite Hu.
Qed.

Lemma l_name_inj i j : l_name i = l_name j -> i = j.
Proof. unfold l_name, mk_name1. intros [= H]. by apply decimal_inj. Qed.

Section NewUnivParamFacts.
Variable m_lls : gset name.
Variable universes : gset name.

Definition taken_names (params : gset name) : gset name := m_lls ∪ params ∪ universes.

Lemma univ_name_taken_spec params r :
  univ_name_taken m_lls universes params r = true <-> r ∈ taken_names params.
Proof.
  unfold univ_name_taken, taken_names.
  rewrite !orb_true_iff, !bool_decide_eq_true, !elem_of_union. tauto.
Qed.

(** Among more consecutive candidates than there are taken names, one is
    free. *)
Lemma free_candidate params idx :
  exists k, (k <= size (taken_names params))%nat /\
            l_name (idx + N.of_nat k) ∉ taken_names params.
Proof.
  set (n := size (taken_names params)).
  set (cands := (fun k => l_name (idx + N.of_nat k)) <$> seq 0 (S n)).
  destruct (decide (Forall (fun r => r ∈ taken_names params) cands)) as [Hall|Hex].
  - exfalso.
    assert (Hnd : NoDup cands).
    { apply NoDup_fmap_2; [|apply NoDup_seq]. intros a b Hab%l_name_inj. lia. }
    assert (Hsub : list_to_set (C:=gset name) cands ⊆ taken_names params).
    { intros r Hr%elem_of_list_to_set. by eapply Forall_forall in Hall. }
    apply subseteq_size in Hsub. rewrite size_list_to_set in Hsub by done.
    subst cands. rewrite length_fmap, length_seq in Hsub. lia.
  - apply not_Forall_Exists in Hex; [|apply _].
    apply Exists_exists in Hex as (r & Hr & Hnot). subst cands.
    apply list_elem_of_fmap in Hr as (k & -> & Hk%elem_of_seq).
    exists k. split; [lia|done].
Qed.

Lemma first_free_idx_spec params :
  forall k fuel idx,
    (k <= fuel)%nat -> idx + N.of_nat k < unsigned_modulus ->
    l_name (idx + N.of_nat k) ∉ taken_names params ->
    (forall j, (j < k)%nat -> l_name (idx + N.of_nat j) ∈ taken_names params) ->
    first_free_idx m_lls universes fuel params idx = Some (idx + N.of_nat k).
Proof.
  induction k as [|k IH]; intros fuel idx Hfuel Hbound Hfree Hbelow.
  - rewrite N.add_0_r in *.
    destruct fuel; simpl;
      destruct (univ_name_taken _ _ params (l_name idx)) eqn:Ht; try done;
      by apply univ_name_taken_spec in Ht.
  - destruct fuel as [|fuel]; [lia|]. simpl.
    assert (Ht : univ_name_taken m_lls universes params (l_name idx) = true).
    { apply univ_name_taken_spec. specialize (Hbelow O). rewrite N.add_0_r in Hbelow.
      apply Hbelow. lia. }
    rewrite Ht. unfold wrap_unsigned. rewrite N.mod_small by lia.
    replace (idx + N.of_nat (S k)) with (idx + 1 + N.of_nat k) in * by lia.
    apply IH; [lia|done|done|].
    intros j Hj. replace (idx + 1 + N.of_nat j) with (idx + N.of_nat (S j)) by lia.
    apply Hbelow. lia.
Qed.

(** The least free candidate. *)
Lemma least_free_candidate params idx :
  exists k, (k <= size (taken_names params))%nat /\
            (l_name (idx + N.of_nat k) ∉ taken_names params) /\
            forall j, (j < k)%nat -> l_name (idx + N.of_nat j) ∈ taken_names params.
Proof.
  destruct (free_candidate params idx) as (k0 & Hk0 & Hfree0).
  revert Hk0 Hfree0. generalize (size (taken_names params)) as n. intros n.
  induction k0 as [k0 IH] using lt_wf_ind. intros Hk0 Hfree0.
  destruct (decide (Forall (fun j => l_name (idx + N.of_nat j) ∈ taken_names params)
                      (seq 0 k0))) as [Hall|Hex].
  - exists k0. repeat split; [done..|]. intros j Hj.
    eapply Forall_forall in Hall; [exact Hall|]. apply elem_of_seq. lia.
  - apply not_Forall_Exists in Hex; [|apply _].
    apply Exists_exists in Hex as (j & Hj%elem_of_seq & Hnot).
    apply (IH j); [lia|lia|done].
Qed.

(** [mk_new_univ_param] comes to an end within as many iterations as there
    are names in use (local levels, chosen parameters, global universes),
    provided the index does not leave the range of [unsigned] on the way.
    The parameter it returns is "l_k" for the least [k] from [m_next_idx] on
    whose name is not in use; the name is added to the chosen parameters and
    appended to the list of new ones, and [m_next_idx] becomes [k]. *)
Theorem mk_new_univ_param_fresh (st : univ_params) (fuel : nat) :
  let taken := taken_names (m_params st) in
  (size taken <= fuel)%nat ->
  m_next_idx st + N.of_nat (size taken) < unsigned_modulus ->
  exists k,
    mk_new_univ_param m_lls universes fuel st
    = Some (mk_param_univ (l_name k),
            mk_univ_params ({[ l_name k ]} ∪ m_params st) (m_new_params st ++ [l_name k]) k) /\
    m_next_idx st <= k /\ k <= m_next_idx st + N.of_nat (size taken) /\
    (l_name k ∉ taken) /\
    (forall j, m_next_idx st <= j -> j < k -> l_name j ∈ taken).
Proof.
  intros taken Hfuel Hbound. subst taken.
  destruct (least_free_candidate (m_params st) (m_next_idx st)) as (k & Hk & Hfree & Hbelow).
  exists (m_next_idx st + N.of_nat k). split; [|split; [lia|split; [lia|split; [done|]]]].
  - unfold mk_new_univ_param.
    rewrite (first_free_idx_spec (m_params st) k fuel (m_next_idx st)); try done; lia.
  - intros j Hj1 Hj2.
    replace j with (m_next_idx st + N.of_nat (N.to_nat (j - m_next_idx st))) by lia.
    apply Hbelow. lia.
Qed.
End NewUnivParamFacts.

Lemma mk_new_univ_param_fresh_witness :
  mk_new_univ_param {[ l_name 1 ]} {[ l_name 3 ]} 3
    (mk_univ_params {[ l_name 2 ]} [] 1)
  = Some (mk_param_univ (l_name 4),
          mk_univ_params ({[ l_name 4 ]} ∪ {[ l_name 2 ]}) [l_name 4] 4).
Proof.
  destruct (mk_new_univ_param_fresh {[ l_name 1 ]} {[ l_name 3 ]}
              (mk_univ_params {[ l_name 2 ]} [] 1) 3) as (k & Heq & _ & _ & _ & _).
  - by vm_compute.
  - by vm_compute.
  - rewrite Heq. by vm_compute in Heq |- *.
Defined.

End ParserUtil.

(** * The rewrite tactic ([library/tactic/rewrite_tactic.cpp]) *)

Module RewriteTactic.

(** ** Options *)

Definition LEAN_DEFAULT_REWRITER_MAX_ITERATIONS : N := 200.
Definition LEAN_DEFAULT_REWRITER_SYNTACTIC : bool := false.
Definition LEAN_DEFAULT_REWRITER_TRACE : bool := true.

(** The three option names, as [initialize_rewrite_tactic] creates them. *)
Definition g_rewriter_max_iterations : name := mk_name2 "rewriter" "max_iter".
Definition g_rewriter_syntactic : name := mk_name2 "rewriter" "syntactic".
Definition g_rewriter_trace : name := mk_name2 "rewriter" "trace".

(** Modelled from the spec: the options class is missing; it is a finite map
    from option names to values, read with a default. *)
Inductive option_value : Type :=
| unsigned_value (n : N)
| bool_value (b : bool).

Definition get_unsigned (opts : gmap name option_value) (n : name) (def : N) : N :=
  match opts !! n with
  | Some (unsigned_value v) => v
  | _ => def
  end.

Definition get_bool (opts : gmap name option_value) (n : name) (def : bool) : bool :=
  match opts !! n with
  | Some (bool_value v) => v
  | _ => def
  end.

Definition get_rewriter_max_iterations (opts : gmap name option_value) : N :=
  get_unsigned opts g_rewriter_max_iterations LEAN_DEFAULT_REWRITER_MAX_ITERATIONS.

Definition get_rewriter_syntactic (opts : gmap name option_value) : bool :=
  get_bool opts g_rewriter_syntactic LEAN_DEFAULT_REWRITER_SYNTACTIC.

Definition get_rewriter_trace (opts : gmap name option_value) : bool :=
  get_bool opts g_rewriter_trace LEAN_DEFAULT_REWRITER_TRACE.

(** The option declarations that [initialize_rewrite_tactic] registers
    ([register_unsigned_option], [register_bool_option]): name, default,
    description. *)
Definition registered_options : list (name * option_value * string) :=
  [ (g_rewriter_max_iterations, unsigned_value LEAN_DEFAULT_REWRITER_MAX_ITERATIONS,
     "(rewriter tactic) maximum number of iterations");
    (g_rewriter_syntactic, bool_value LEAN_DEFAULT_REWRITER_SYNTACTIC,
     "(rewriter tactic) if true tactic will not unfold any constant when performing pattern matching");
    (g_rewriter_trace, bool_value LEAN_DEFAULT_REWRITER_TRACE,
     "(rewriter tactic) if true tactic will generate a trace for rewrite step failures") ].

(** [s] occurs in [t]. *)
Definition occurs_in (s t : string) : bool :=
  match String.index 0 s t with
  | Some _ => true
  | None => false
  end.

(** ** The step macros *)

Definition mk_rewrite_reduce (loc : location) : expr :=
  mk_macro (rewrite_reduce_macro_cell (mk_reduce_info loc)) [].

Definition mk_rewrite_reduce_to (e : expr) (loc : location) : expr :=
  mk_macro (rewrite_reduce_macro_cell (mk_reduce_info loc)) [e].

Definition is_rewrite_reduce_step (e : expr) : bool :=
  match e with
  | Macro (rewrite_reduce_macro_cell _) _ => true
  | _ => false
  end.

Definition get_rewrite_reduce_info (e : expr) : option reduce_info :=
  match e with
  | Macro (rewrite_reduce_macro_cell info) _ => Some info
  | _ => None
  end.

Definition mk_rewrite_fold (e : expr) (loc : location) : expr :=
  mk_macro (rewrite_fold_macro_cell (mk_reduce_info loc)) [e].

Definition is_rewrite_fold_step (e : expr) : bool :=
  match e with
  | Macro (rewrite_fold_macro_cell _) _ => true
  | _ => false
  end.

Definition mk_rewrite_unfold (ns : list name) (loc : location) : expr :=
  mk_macro (rewrite_unfold_macro_cell (mk_unfold_info ns loc)) [].

Definition is_rewrite_unfold_step (e : expr) : bool :=
  match e with
  | Macro (rewrite_unfold_macro_cell _) _ => true
  | _ => false
  end.

Definition get_rewrite_unfold_info (e : expr) : option unfold_info :=
  match e with
  | Macro (rewrite_unfold_macro_cell info) _ => Some info
  | _ => None
  end.

Definition mk_rw_macro (def : macro_definition) (pattern : option expr) (H : expr) : expr :=
  match pattern with
  | Some pat => mk_macro def [H; pat]
  | None => mk_macro def [H]
  end.

Definition mk_rewrite_once (pattern : option expr) (H : expr) (symm : bool) (loc : location) : expr :=
  mk_rw_macro (rewrite_element_macro_cell (mk_once symm loc)) pattern H.

Definition mk_rewrite_zero_or_more (pattern : option expr) (H : expr) (symm : bool)
    (loc : location) : expr :=
  mk_rw_macro (rewrite_element_macro_cell (mk_zero_or_more symm loc)) pattern H.

Definition mk_rewrite_one_or_more (pattern : option expr) (H : expr) (symm : bool)
    (loc : location) : expr :=
  mk_rw_macro (rewrite_element_macro_cell (mk_one_or_more symm loc)) pattern H.

Definition mk_rewrite_at_most_n (pattern : option expr) (H : expr) (symm : bool) (n : N)
    (loc : location) : expr :=
  mk_rw_macro (rewrite_element_macro_cell (mk_at_most_n n symm loc)) pattern H.

Definition mk_rewrite_exactly_n (pattern : option expr) (H : expr) (symm : bool) (n : N)
    (loc : location) : expr :=
  mk_rw_macro (rewrite_element_macro_cell (mk_exactly_n n symm loc)) pattern H.

Definition is_rewrite_step (e : expr) : bool :=
  match e with
  | Macro (rewrite_element_macro_cell _) _ => true
  | _ => false
  end.

Definition has_rewrite_pattern (e : expr) : bool := bool_decide (macro_num_args e = 2%nat).
Definition get_rewrite_rule (e : expr) : option expr := macro_arg e 0.
Definition get_rewrite_pattern (e : expr) : option expr := macro_arg e 1.

Definition get_rewrite_info (e : expr) : option rewrite_info :=
  match e with
  | Macro (rewrite_element_macro_cell info) _ => Some info
  | _ => None
  end.

(** ** Goals and proof states *)

(** Modelled from the spec: the goal, substitution, name-generator and
    proof-state classes are missing.  A goal is a metavariable application
    with its target type; a substitution maps metavariable names to terms; a
    name generator is a prefix with a counter; a proof state is a list of
    goals, a substitution, a name generator and its two flags. *)
Record goal : Type := mk_goal {
  goal_meta : expr;
  goal_type : expr
}.

Record name_generator : Type := mk_name_generator {
  ngen_prefix : name;
  ngen_next_idx : N
}.

Definition ngen_next (g : name_generator) : name * name_generator :=
  (ngen_prefix g ++ [inr (ngen_next_idx g)],
   mk_name_generator (ngen_prefix g) (ngen_next_idx g + 1)).

Definition ngen_mk_child (g : name_generator) : name_generator * name_generator :=
  let '(n, g') := ngen_next g in (mk_name_generator n 0, g').

Record proof_state : Type := mk_proof_state {
  get_goals : list goal;
  get_subst : gmap name expr;
  get_ngen : name_generator;
  relax_main_opaque : bool;
  report_failure : bool
}.

(** [proof_state(ps, gs, s, ngen)]: a copy of [ps] with new goals,
    substitution and name generator. *)
Definition update_proof_state (ps : proof_state) (gs : list goal) (s : gmap name expr)
    (ngen : name_generator) : proof_state :=
  mk_proof_state gs s ngen (relax_main_opaque ps) (report_failure ps).

Inductive constraint : Type :=
| eq_constraint (lhs rhs : expr)
| level_eq_constraint (lhs rhs : level).

(** ** The failure trace *)

Inductive failure_kind : Type := Unification | Exception | HasMetavars.

Record failure : Type := mk_failure {
  m_elab_lemma : expr;
  m_subterm : expr;
  m_kind : failure_kind
}.

Record target_trace : Type := mk_target_trace {
  m_is_hypothesis : bool;
  m_target : expr;
  m_failures : list failure;
  m_matched : option expr
}.

Record trace : Type := mk_trace {
  m_lemma : option expr;
  m_pattern : option expr;
  m_targets : list target_trace
}.

Definition empty_trace : trace := mk_trace None None [].

(** ** Exceptions and the state of a [rewrite_fn] object *)

Inductive exception : Type :=
| generic_exception (msg : string) (main_expr : option expr)
| tactic_exception (msg : string) (e : option expr) (ps : proof_state)
    (saved_trace : option trace)
| no_goal_exception (ps : proof_state)
| assertion_violation
| kernel_exception (msg : string).

(** The members of [rewrite_fn] that no method assigns after construction,
    and [m_expr_loc], which [operator()] sets with [flet] for the time of one
    step.  The environment, the I/O state and the type checkers are part of
    the kernel interface below. *)
Record rewrite_fn : Type := mk_rewrite_fn {
  m_ps : proof_state;
  m_use_trace : bool;
  m_max_iter : N;
  m_expr_loc : option expr
}.

Definition set_expr_loc (self : rewrite_fn) (e : option expr) : rewrite_fn :=
  mk_rewrite_fn (m_ps self) (m_use_trace self) (m_max_iter self) e.

(** The members that the methods update destructively. [m_ctx] is always the
    local context of [m_g] and is left out. *)
Record rewrite_state : Type := mk_rewrite_state {
  m_ngen : name_generator;
  m_g : goal;
  m_subst : gmap name expr;
  m_trace_initialized : bool;
  m_trace : trace
}.

Definition set_ngen (st : rewrite_state) (g : name_generator) : rewrite_state :=
  mk_rewrite_state g (m_g st) (m_subst st) (m_trace_initialized st) (m_trace st).

Definition set_goal (st : rewrite_state) (g : goal) (s : gmap name expr) : rewrite_state :=
  mk_rewrite_state (m_ngen st) g s (m_trace_initialized st) (m_trace st).

Definition set_trace (st : rewrite_state) (init : bool) (t : trace) : rewrite_state :=
  mk_rewrite_state (m_ngen st) (m_g st) (m_subst st) init t.

(** A method either returns a value and leaves a state, or throws. *)
Inductive outcome (A : Type) : Type :=
| Ok (a : A) (st : rewrite_state)
| Throw (ex : exception).
Arguments Ok {A}.
Arguments Throw {A}.

Definition M (A : Type) : Type := rewrite_state -> outcome A.

Definition ret {A : Type} (a : A) : M A := fun st => Ok a st.

Definition bind {A B : Type} (c : M A) (k : A -> M B) : M B :=
  fun st =>
    match c st with
    | Ok a st' => k a st'
    | Throw ex => Throw ex
    end.

Definition throw {A : Type} (ex : exception) : M A := fun _ => Throw ex.

Definition get_state : M rewrite_state := fun st => Ok st st.
Definition put_state (st : rewrite_state) : M unit := fun _ => Ok tt st.

Notation "x <- c ;; k" := (bind c (fun x => k))
  (at level 100, c at next level, right associativity).
Notation "c ;;; k" := (bind c (fun _ => k))
  (at level 100, right associativity).

(** A dereferenced accessor whose precondition ([lean_assert]) fails. *)
Definition assert_some {A : Type} (o : option A) : M A :=
  match o with
  | Some a => ret a
  | None => throw assertion_violation
  end.

(** What the normaliser hands back to [reduce]: the normal form, the
    constraints it generated, and the declarations for which it called the
    converter's [is_opaque], in the order of the calls. *)
Record normalize_result : Type := mk_normalize_result {
  nr_expr : expr;
  nr_cs : list constraint;
  nr_is_opaque_calls : list name
}.

(** The kernel, the elaborator and the methods of [rewrite_fn] that consist
    of calls into them.  The theorems hold for every implementation. *)
Record kernel : Type := mk_kernel {
  (** [m_elab(g, ngen, e, none_expr(), false)] *)
  k_elab : goal -> name_generator -> expr -> exception + (expr * list constraint);
  (** [normalize(tc, e, cs, use_eta)] with a type checker built on the given
      name generator and on a converter with the given [is_opaque] *)
  k_normalize : name_generator -> (name -> bool) -> expr -> exception + normalize_result;
  (** [goal::mk_meta], [goal::get_hyps], [assign(subst, g, v)], [Pi(hyps, t)] *)
  k_goal_mk_meta : goal -> name -> expr -> expr;
  k_get_hyps : goal -> list expr;
  k_assign : gmap name expr -> goal -> expr -> gmap name expr;
  k_Pi : list expr -> expr -> expr;
  k_apply_substitution : proof_state -> proof_state;
  (** methods of [rewrite_fn] *)
  k_get_pattern : rewrite_fn -> expr -> M expr;
  k_process_rewrite_single_step : rewrite_fn -> expr -> expr -> M bool;
  k_process_fold_step : rewrite_fn -> expr -> M bool;
  k_process_reduce_to_step : rewrite_fn -> expr -> location -> M bool;
  k_check_trivial_goal : rewrite_fn -> M bool
}.

(** The result of running the tactic on a proof state: the sequence of
    successor states, or an exception. *)
Inductive tactic_result : Type :=
| Return (seq : list proof_state)
| Raise (ex : exception).

Section Engine.
Variable K : kernel.

(** ** Errors *)

(** The text built by [throw_max_iter_exceeded]. *)
Definition max_iter_exceeded_message (max_iter : N) : string :=
  "rewrite tactic failed, maximum number of iterations exceeded "
  +:+ "(current threshold: " +:+ decimal max_iter
  +:+ ", increase the threshold by setting option 'rewrite.max_iter')".

Definition throw_rewrite_exception {A : Type} (self : rewrite_fn) (msg : string) : M A :=
  throw (generic_exception msg (m_expr_loc self)).

Definition throw_max_iter_exceeded {A : Type} (self : rewrite_fn) : M A :=
  throw_rewrite_exception self (max_iter_exceeded_message (m_max_iter self)).

Definition check_max_iter (self : rewrite_fn) (i : N) : M unit :=
  if m_max_iter self <=? i then throw_max_iter_exceeded self else ret tt.

(** ** Trace *)

Definition clear_trace : M unit :=
  fun st => Ok tt (set_trace st false (m_trace st)).

Definition init_trace (self : rewrite_fn) (lemma pattern : expr) : M unit :=
  fun st =>
    if m_use_trace self
    then Ok tt (set_trace st true (mk_trace (Some lemma) (Some pattern) []))
    else Ok tt st.

(** ** Reduce and unfold *)

(** [rewriter_converter::is_opaque]: the answer, and the new value of the
    flag [m_unfolded] that the converter shares with [reduce]. *)
Definition rewriter_converter_is_opaque (m_to_unfold : list name) (d : name)
    (m_unfolded : bool) : bool * bool :=
  if bool_decide (d ∈ m_to_unfold) then (false, true) else (true, m_unfolded).

(** The value of the flag after the given calls of [is_opaque]. *)
Definition unfolded_after (to_unfold : list name) (calls : list name) (unfolded : bool) : bool :=
  foldl (fun u d => (rewriter_converter_is_opaque to_unfold d u).2) unfolded calls.

Definition reduce (e : expr) (to_unfold : list name) : M (option expr) :=
  fun st =>
    let unfolded := bool_decide (to_unfold = []) in
    let '(child, ngen) := ngen_mk_child (m_ngen st) in
    let st := set_ngen st ngen in
    match k_normalize K child (fun d => (rewriter_converter_is_opaque to_unfold d unfolded).1) e with
    | inl ex => Throw ex
    | inr res =>
        let unfolded := unfolded_after to_unfold (nr_is_opaque_calls res) unfolded in
        if negb unfolded || negb (bool_decide (nr_cs res = []))
        then Ok None st
        else Ok (Some (nr_expr res)) st
    end.

Definition update_goal (g : goal) (s : gmap name expr) : M unit :=
  fun st => Ok tt (set_goal st g s).

Definition replace_goal (new_type : expr) : M unit :=
  fun st =>
    let '(n, ngen) := ngen_next (m_ngen st) in
    let M := k_goal_mk_meta K (m_g st) n new_type in
    let new_g := mk_goal M new_type in
    update_goal new_g (k_assign K (m_subst st) (m_g st) M) (set_ngen st ngen).

Definition process_reduce_goal (to_unfold : list name) : M bool :=
  st <- get_state ;;
  new_type <- reduce (goal_type (m_g st)) to_unfold ;;
  match new_type with
  | Some t => replace_goal t ;;; ret true
  | None => ret false
  end.

Definition update_mlocal (e new_type : expr) : expr :=
  match e with
  | Local n pp _ bi => Local n pp new_type bi
  | Meta n _ => Meta n new_type
  | _ => e
  end.

(** The loop of [replace_hypothesis]: the first hypothesis with the name of
    [hyp] is replaced. *)
Fixpoint replace_first_hyp (hyp new_hyp : expr) (hyps : list expr) : list expr :=
  match hyps with
  | [] => []
  | h :: hyps' =>
      if bool_decide (mlocal_name h = mlocal_name hyp) then new_hyp :: hyps'
      else h :: replace_first_hyp hyp new_hyp hyps'
  end.

Definition replace_hypothesis (hyp new_hyp_type : expr) : M unit :=
  fun st =>
    let new_hyp := update_mlocal hyp new_hyp_type in
    let new_hyps := replace_first_hyp hyp new_hyp (k_get_hyps K (m_g st)) in
    let new_type := goal_type (m_g st) in
    let '(n, ngen) := ngen_next (m_ngen st) in
    let new_mvar := Meta n (k_Pi K new_hyps new_type) in
    let new_meta := mk_app new_mvar new_hyps in
    let new_g := mk_goal new_meta new_type in
    update_goal new_g (k_assign K (m_subst st) (m_g st) new_meta) (set_ngen st ngen).

Definition process_reduce_hypothesis (hyp : expr) (to_unfold : list name) : M bool :=
  new_hyp_type <- reduce (mlocal_type hyp) to_unfold ;;
  match new_hyp_type with
  | Some t => replace_hypothesis hyp t ;;; ret true
  | None => ret false
  end.

(** The loop over the hypotheses of [process_reduce_step]. *)
Fixpoint process_reduce_hyps (to_unfold : list name) (loc : location) (hyps : list expr)
    (progress : bool) : M bool :=
  match hyps with
  | [] => ret progress
  | h :: hyps' =>
      match includes_hypothesis loc (local_pp_name h) with
      | None => process_reduce_hyps to_unfold loc hyps' progress
      | Some _ =>
          b <- process_reduce_hypothesis h to_unfold ;;
          process_reduce_hyps to_unfold loc hyps' (if b then true else progress)
      end
  end.

(** [process_reduce_step(list<name> const &, location const &)] *)
Definition process_reduce_names (to_unfold : list name) (loc : location) : M bool :=
  if is_goal_only loc then process_reduce_goal to_unfold
  else
    st <- get_state ;;
    progress <- process_reduce_hyps to_unfold loc (k_get_hyps K (m_g st)) false ;;
    match includes_goal loc with
    | Some _ =>
        b <- process_reduce_goal to_unfold ;;
        ret (if b then true else progress)
    | None => ret progress
    end.

Definition process_unfold_step (elem : expr) : M bool :=
  info <- assert_some (get_rewrite_unfold_info elem) ;;
  process_reduce_names (unfold_names info) (unfold_location info).

(** [process_reduce_step(expr const &)] *)
Definition process_reduce_step (self : rewrite_fn) (elem : expr) : M bool :=
  info <- assert_some (get_rewrite_reduce_info elem) ;;
  match macro_args elem with
  | [] => process_reduce_names [] (reduce_location info)
  | arg :: _ => k_process_reduce_to_step K self arg (reduce_location info)
  end.

(** ** Rewrite steps *)

(** [for (i = 0; i < bound; i++) { if (!process_rewrite_single_step(..)) return ..; }]
    with [n] iterations to go and the counter at [i].  The result is [None]
    when the body left the function with its [return], and the final value
    of [i] when the loop ran to its bound. *)
Fixpoint rewrite_loop (self : rewrite_fn) (orig_elem pattern : expr) (n : nat) (i : N)
    : M (option N) :=
  match n with
  | O => ret (Some i)
  | S n' =>
      b <- k_process_rewrite_single_step K self orig_elem pattern ;;
      if b then rewrite_loop self orig_elem pattern n' (i + 1) else ret None
  end.

Definition process_rewrite_step (self : rewrite_fn) (elem orig_elem : expr) : M bool :=
  pattern <- k_get_pattern K self elem ;;
  init_trace self orig_elem pattern ;;;
  info <- assert_some (get_rewrite_info elem) ;;
  match get_multiplicity info with
  | Once => k_process_rewrite_single_step K self orig_elem pattern
  | AtMostN =>
      r <- rewrite_loop self orig_elem pattern
             (N.to_nat (N.min (num info) (m_max_iter self))) 0 ;;
      match r with
      | None => ret true
      | Some i => check_max_iter self i ;;; ret true
      end
  | ExactlyN =>
      r <- rewrite_loop self orig_elem pattern
             (N.to_nat (N.min (num info) (m_max_iter self))) 0 ;;
      match r with
      | None => ret false
      | Some i => check_max_iter self i ;;; ret true
      end
  | ZeroOrMore =>
      r <- rewrite_loop self orig_elem pattern (N.to_nat (m_max_iter self)) 0 ;;
      match r with
      | None => ret true
      | Some _ => throw_max_iter_exceeded self
      end
  | OneOrMore =>
      b <- k_process_rewrite_single_step K self orig_elem pattern ;;
      if negb b then ret false
      else
        r <- rewrite_loop self orig_elem pattern (N.to_nat (m_max_iter self)) 0 ;;
        match r with
        | None => ret true
        | Some _ => throw_max_iter_exceeded self
        end
  end.

(** [m_elab(m_g, m_ngen.mk_child(), e, none_expr(), false).first] *)
Definition elaborate (e : expr) : M expr :=
  fun st =>
    let '(child, ngen) := ngen_mk_child (m_ngen st) in
    match k_elab K (m_g st) child e with
    | inl ex => Throw ex
    | inr (e', _) => Ok e' (set_ngen st ngen)
    end.

Definition process_step (self : rewrite_fn) (elem : expr) : M bool :=
  clear_trace ;;;
  if is_rewrite_unfold_step elem then process_unfold_step elem
  else if is_rewrite_fold_step elem then k_process_fold_step K self elem
  else if is_rewrite_reduce_step elem then process_reduce_step self elem
  else
    rule <- assert_some (get_rewrite_rule elem) ;;
    def <- assert_some (macro_def elem) ;;
    if has_rewrite_pattern elem then
      pat <- assert_some (get_rewrite_pattern elem) ;;
      pattern <- elaborate pat ;;
      process_rewrite_step self (mk_macro def [rule; pattern]) elem
    else
      rule <- elaborate rule ;;
      process_rewrite_step self (mk_macro def [rule]) elem.

(** ** The tactic *)

(** The proof state that [operator()] builds from the working members. *)
Definition current_proof_state (self : rewrite_fn) (st : rewrite_state) : proof_state :=
  update_proof_state (m_ps self) (m_g st :: tail (get_goals (m_ps self)))
    (m_subst st) (m_ngen st).

(** [rewrite_fn::operator()] *)
Fixpoint run_steps (self : rewrite_fn) (elems : list expr) (st : rewrite_state)
    : tactic_result :=
  match elems with
  | elem :: elems' =>
      match process_step (set_expr_loc self (Some elem)) elem st with
      | Throw ex => Raise ex
      | Ok false st' =>
          if report_failure (m_ps self) then
            let curr_ps := current_proof_state self st' in
            if negb (m_use_trace self) || negb (m_trace_initialized st') then
              Raise (tactic_exception "rewrite step failed" (Some elem) curr_ps None)
            else
              Raise (tactic_exception "rewrite step failed" (Some elem) curr_ps
                       (Some (m_trace st')))
          else Return []
      | Ok true st' => run_steps self elems' st'
      end
  | [] =>
      match k_check_trivial_goal K self st with
      | Throw ex => Raise ex
      | Ok trivial st' =>
          let new_gs :=
            if trivial then tail (get_goals (m_ps self))
            else m_g st' :: tail (get_goals (m_ps self)) in
          Return [update_proof_state (m_ps self) new_gs (m_subst st') (m_ngen st')]
      end
  end.

(** The constructor of [rewrite_fn]: the three type checkers each take a
    child of the name generator; the substitution is applied to the proof
    state; the first goal becomes the working goal. *)
Definition new_rewrite_fn (opts : gmap name option_value) (ps : proof_state)
    : option (rewrite_fn * rewrite_state) :=
  let ngen := (ngen_mk_child (ngen_mk_child (ngen_mk_child (get_ngen ps)).2).2).2 in
  let ps := k_apply_substitution K ps in
  match get_goals ps with
  | [] => None
  | g :: _ =>
      Some (mk_rewrite_fn ps (get_rewriter_trace opts) (get_rewriter_max_iterations opts) None,
            mk_rewrite_state ngen g (get_subst ps) false empty_trace)
  end.

(** Modelled from the spec: [throw_no_goal_if_enabled] is missing; it raises
    the no-goal error when failure reporting is enabled for the proof state
    and does nothing otherwise. *)
Definition throw_no_goal_if_enabled (s : proof_state) : option exception :=
  if report_failure s then Some (no_goal_exception s) else None.

(** The function that [mk_rewrite_tactic(elab, elems)] wraps as a tactic; the
    elaborator and the environment are in [K], the options in [opts]. *)
Definition mk_rewrite_tactic (elems : list expr) (opts : gmap name option_value)
    (s : proof_state) : tactic_result :=
  match get_goals s with
  | [] =>
      match throw_no_goal_if_enabled s with
      | Some ex => Raise ex
      | None => Return []
      end
  | _ :: _ =>
      match new_rewrite_fn opts s with
      | None => Raise assertion_violation
      | Some (self, st) => run_steps self elems st
      end
  end.

(** ** Runs of consecutive successful applications *)

(** [applications self orig pattern k st st']: [k] calls of
    [process_rewrite_single_step] in a row, starting in [st], all return
    true and leave the state [st']. *)
Inductive applications (self : rewrite_fn) (orig_elem pattern : expr)
    : nat -> rewrite_state -> rewrite_state -> Prop :=
| applications_O st : applications self orig_elem pattern O st st
| applications_S k st st1 st2 :
    k_process_rewrite_single_step K self orig_elem pattern st = Ok true st1 ->
    applications self orig_elem pattern k st1 st2 ->
    applications self orig_elem pattern (S k) st st2.

End Engine.

(** ** A small kernel to run the engine on *)

(** Terms [f (f (... c))]: the toy rewrite rule strips one [f] from the
    goal. *)
Definition const_c : expr := Constant (mk_name1 "c") [].
Definition const_f : expr := Constant (mk_name1 "f") [].
Definition const_rule : expr := Constant (mk_name1 "rule") [].

(** A single application that always succeeds and changes nothing. *)
Definition always_applies : rewrite_fn -> expr -> expr -> M bool :=
  fun _ _ _ => ret true.

(** A single application that succeeds exactly when the goal is an
    application, and then replaces the goal by the argument. *)
Definition strip_application : rewrite_fn -> expr -> expr -> M bool :=
  fun _ _ _ st =>
    match goal_type (m_g st) with
    | App _ t => Ok true (set_goal st (mk_goal (goal_meta (m_g st)) t) (m_subst st))
    | _ => Ok false st
    end.

(** The kernel around it: elaboration and normalisation return their input,
    goals have no hypotheses, the pattern of a step is its rule. *)
Definition toy_kernel (single : rewrite_fn -> expr -> expr -> M bool) : kernel := {|
  k_elab _ _ e := inr (e, []);
  k_normalize _ _ e := inr (mk_normalize_result e [] []);
  k_goal_mk_meta _ n t := Meta n t;
  k_get_hyps _ := [];
  k_assign s g v := <[mlocal_name (goal_meta g) := v]> s;
  k_Pi _ t := t;
  k_apply_substitution ps := ps;
  k_get_pattern _ e := ret (default e (macro_arg e 0));
  k_process_rewrite_single_step := single;
  k_process_fold_step _ _ := ret false;
  k_process_reduce_to_step _ _ _ := ret false;
  k_check_trivial_goal _ := ret false
|}.

Definition toy_goal (t : expr) : goal := mk_goal (Meta (mk_name1 "m") t) t.

(** A proof state with the single goal [t] and failure reporting on. *)
Definition toy_proof_state (t : expr) : proof_state :=
  mk_proof_state [toy_goal t] ∅ (mk_name_generator (mk_name1 "g") 0) false true.

Definition max_iter_5 : gmap name option_value :=
  {[ g_rewriter_max_iterations := unsigned_value 5 ]}.

(** ** Properties of the repetition loop *)

Section Loop.
Variable K : kernel.
Variable self : rewrite_fn.
Variables orig_elem pattern : expr.

Lemma rewrite_loop_all k i st st' :
  applications K self orig_elem pattern k st st' ->
  rewrite_loop K self orig_elem pattern k i st = Ok (Some (i + N.of_nat k)) st'.
Proof.
  intros Happ. revert i. induction Happ as [st|k st st1 st2 Hstep _ IH]; intros i.
  - simpl. unfold ret. by rewrite N.add_0_r.
  - simpl. unfold bind. rewrite Hstep, IH. do 2 f_equal. lia.
Qed.

Lemma rewrite_loop_fails m n i st st1 st2 :
  applications K self orig_elem pattern m st st1 ->
  k_process_rewrite_single_step K self orig_elem pattern st1 = Ok false st2 ->
  (m < n)%nat ->
  rewrite_loop K self orig_elem pattern n i st = Ok None st2.
Proof.
  intros Happ Hfail. revert n i.
  induction Happ as [st|k st st1 st2' Hstep _ IH]; intros n i Hlt.
  - destruct n as [|n]; [lia|]. simpl. unfold bind. by rewrite Hfail.
  - destruct n as [|n]; [lia|]. simpl. unfold bind. rewrite Hstep.
    apply IH; [done|lia].
Qed.

Lemma check_max_iter_below i st :
  i < m_max_iter self -> check_max_iter self i st = Ok tt st.
Proof.
  intros Hlt. unfold check_max_iter.
  destruct (N.leb_spec (m_max_iter self) i); [lia|done].
Qed.

Lemma check_max_iter_reached i st :
  m_max_iter self <= i ->
  check_max_iter self i st
  = Throw (generic_exception (max_iter_exceeded_message (m_max_iter self)) (m_expr_loc self)).
Proof.
  intros Hle. unfold check_max_iter.
  destruct (N.leb_spec (m_max_iter self) i); [done|lia].
Qed.
End Loop.

(** ** Counted repetition and the iteration ceiling *)

Definition at_most_7 : expr :=
  mk_rewrite_at_most_n None const_rule false 7 (loc_goal_only occ_all).

(** C1, as stated, fails: with the ceiling at 5, an [AtMostN(7)] step whose
    applications all succeed raises the ceiling-exceeded error. *)
Lemma at_most_n_raises_at_ceiling :
  mk_rewrite_tactic (toy_kernel always_applies) [at_most_7] max_iter_5
    (toy_proof_state const_c)
  = Raise (generic_exception (max_iter_exceeded_message 5) (Some at_most_7)).
Proof. reflexivity. Qed.

(** C1, amended. Take an element step with policy [AtMostN(n)] or
    [ExactlyN(n)] in which every application succeeds.  If [n] is below the
    iteration ceiling, the step succeeds once [n] applications are done.  If
    [n] is at or above the ceiling, the step raises the ceiling-exceeded
    error after as many applications as the ceiling allows.  The two
    policies behave alike here: [AtMostN] reaching the ceiling is an error
    too. *)
Theorem counted_step_at_ceiling (K : kernel) (self : rewrite_fn) (mult : multiplicity)
    (n : N) (symm : bool) (loc : location) (args : list expr) (orig_elem pattern : expr)
    (st0 st1 st2 st3 : rewrite_state) :
  mult = AtMostN \/ mult = ExactlyN ->
  let elem := mk_macro (rewrite_element_macro_cell (mk_rewrite_info symm mult (Some n) loc))
                args in
  k_get_pattern K self elem st0 = Ok pattern st1 ->
  init_trace self orig_elem pattern st1 = Ok tt st2 ->
  applications K self orig_elem pattern (N.to_nat (N.min n (m_max_iter self))) st2 st3 ->
  process_rewrite_step K self elem orig_elem st0
  = if n <? m_max_iter self then Ok true st3
    else Throw (generic_exception (max_iter_exceeded_message (m_max_iter self))
                  (m_expr_loc self)).
Proof.
  intros Hmult elem Hpat Hinit Happ.
  unfold process_rewrite_step, bind. rewrite Hpat, Hinit. simpl.
  pose proof (rewrite_loop_all K self orig_elem pattern _ 0 _ _ Happ) as Hloop.
  rewrite N.add_0_l, N2Nat.id in Hloop.
  destruct (N.ltb_spec n (m_max_iter self)) as [Hlt|Hge].
  - destruct Hmult as [-> | ->]; simpl; unfold num; simpl; rewrite Hloop;
      rewrite check_max_iter_below by lia; done.
  - destruct Hmult as [-> | ->]; simpl; unfold num; simpl; rewrite Hloop;
      rewrite check_max_iter_reached by lia; done.
Qed.

Lemma counted_step_at_ceiling_witness :
  let self := mk_rewrite_fn (toy_proof_state const_c) true 5 None in
  let st := mk_rewrite_state (mk_name_generator (mk_name1 "g") 0) (toy_goal const_c) ∅
              false empty_trace in
  process_rewrite_step (toy_kernel always_applies) self at_most_7 at_most_7 st
  = Throw (generic_exception (max_iter_exceeded_message 5) None).
Proof.
  intros self st.
  apply (counted_step_at_ceiling (toy_kernel always_applies) self AtMostN 7 false
           (loc_goal_only occ_all) [const_rule] at_most_7 const_rule st st
           (set_trace st true (mk_trace (Some at_most_7) (Some const_rule) []))
           (set_trace st true (mk_trace (Some at_most_7) (Some const_rule) []))).
  - by left.
  - reflexivity.
  - reflexivity.
  - repeat econstructor.
Defined.

(** Below the ceiling the count decides: [AtMostN(3)] with the default
    ceiling succeeds. *)
Example at_most_n_below_ceiling :
  mk_rewrite_tactic (toy_kernel always_applies)
    [mk_rewrite_at_most_n None const_rule false 3 (loc_goal_only occ_all)] ∅
    (toy_proof_state const_c)
  = Return [update_proof_state (toy_proof_state const_c) [toy_goal const_c] ∅
              (mk_name_generator (mk_name1 "g") 4)].
Proof. reflexivity. Qed.

(** ** The text of the ceiling-exceeded error *)

Definition zero_or_more_rule : expr :=
  mk_rewrite_zero_or_more None const_rule false (loc_goal_only occ_all).

(** C4. The error raised at the ceiling (here 5, by a [ZeroOrMore] step that
    always applies) reads "maximum number of iterations exceeded" and states
    the threshold, but the option it tells the user to set is
    ['rewrite.max_iter']; the option is registered as [rewriter.max_iter],
    and that name does not occur in the message. *)
Theorem max_iter_message_option_name :
  let msg := "rewrite tactic failed, maximum number of iterations exceeded (current threshold: 5, increase the threshold by setting option 'rewrite.max_iter')" in
  mk_rewrite_tactic (toy_kernel always_applies) [zero_or_more_rule] max_iter_5
    (toy_proof_state const_c)
  = Raise (generic_exception msg (Some zero_or_more_rule)) /\
  occurs_in "maximum number of iterations exceeded" msg = true /\
  occurs_in "current threshold: 5" msg = true /\
  occurs_in "'rewrite.max_iter'" msg = true /\
  name_to_string g_rewriter_max_iterations = "rewriter.max_iter" /\
  occurs_in (name_to_string g_rewriter_max_iterations) msg = false /\
  map (fun d : name * option_value * string => name_to_string d.1.1) registered_options
  = ["rewriter.max_iter"; "rewriter.syntactic"; "rewriter.trace"].
Proof. repeat split. Qed.

(** ** A failing [ExactlyN] step *)

Definition exactly_3 : expr :=
  mk_rewrite_exactly_n None const_rule false 3 (loc_goal_only occ_all).

(** The saved trace that [operator()] attaches to the failure. *)
Definition failure_trace (self : rewrite_fn) (st : rewrite_state) : option trace :=
  if negb (m_use_trace self) || negb (m_trace_initialized st) then None
  else Some (m_trace st).

(** C2, as stated, fails: on the goal [f (f c)], where only two of the three
    applications are possible, the proof state carried by the exception has
    the goal [c] that the two applications left, not the goal before the
    step. *)
Lemma exactly_n_failure_carries_progress :
  let s := toy_proof_state (App const_f (App const_f const_c)) in
  match mk_rewrite_tactic (toy_kernel strip_application) [exactly_3] ∅ s with
  | Raise (tactic_exception _ _ ps _) =>
      map goal_type (get_goals ps) = [const_c] /\
      map goal_type (get_goals s) = [App const_f (App const_f const_c)] /\
      ps <> s
  | _ => False
  end.
Proof. vm_compute. repeat split. discriminate. Qed.

(** C2, amended. If an [ExactlyN(n)] step achieves only [m < n] successful
    applications (the next one fails, below the ceiling), the whole step
    fails and, with failure reporting on, a tactic-failure exception is
    thrown for it.  The proof state that the exception carries is the state
    at the failure: the working goal, substitution and name generator as the
    [m] successful applications and the failed one left them, in place of
    the first goal of the proof state the tactic was started on. *)
Theorem exactly_n_failure_state (K : kernel) (self : rewrite_fn) (n : N) (symm : bool)
    (loc : location) (pat : option expr) (rule e' pattern : expr) (elems : list expr)
    (m : nat) (st sta stb stc std ste stf : rewrite_state) :
  let elem := mk_rewrite_exactly_n pat rule symm n loc in
  let new_args := if pat is Some _ then [rule; e'] else [e'] in
  let new_elem := mk_macro (rewrite_element_macro_cell (mk_exactly_n n symm loc)) new_args in
  let step := set_expr_loc self (Some elem) in
  report_failure (m_ps self) = true ->
  clear_trace st = Ok tt sta ->
  elaborate K (default rule pat) sta = Ok e' stb ->
  k_get_pattern K step new_elem stb = Ok pattern stc ->
  init_trace step elem pattern stc = Ok tt std ->
  applications K step elem pattern m std ste ->
  k_process_rewrite_single_step K step elem pattern ste = Ok false stf ->
  (m < N.to_nat n)%nat ->
  (m < N.to_nat (m_max_iter self))%nat ->
  run_steps K self (elem :: elems) st
  = Raise (tactic_exception "rewrite step failed" (Some elem)
             (update_proof_state (m_ps self) (m_g stf :: tail (get_goals (m_ps self)))
                (m_subst stf) (m_ngen stf))
             (failure_trace self stf)).
Proof.
  intros elem new_args new_elem step Hrep Hclear Helab Hpat Hinit Happ Hfail Hn Hmax.
  assert (Hrw : process_rewrite_step K step new_elem elem stb = Ok false stf).
  { unfold process_rewrite_step, bind. rewrite Hpat, Hinit.
    simpl. unfold num; simpl.
    rewrite (rewrite_loop_fails K step elem pattern m _ 0 std ste stf Happ Hfail); [done|].
    simpl m_max_iter. lia. }
  assert (Hstep : process_step K step elem st = Ok false stf).
  { unfold process_step, bind. rewrite Hclear.
    subst elem new_elem new_args. destruct pat as [p|]; simpl in *; unfold bind;
      rewrite Helab; exact Hrw. }
  simpl. fold elem step. rewrite Hstep, Hrep. unfold failure_trace, current_proof_state.
  by destruct (negb (m_use_trace self) || negb (m_trace_initialized stf)).
Qed.

Lemma exactly_n_failure_state_witness :
  let s := toy_proof_state (App const_f (App const_f const_c)) in
  let self := mk_rewrite_fn s true 200 None in
  let st := mk_rewrite_state (mk_name_generator (mk_name1 "g") 3)
              (toy_goal (App const_f (App const_f const_c))) ∅ false empty_trace in
  let tr := mk_trace (Some exactly_3) (Some const_rule) [] in
  let ngen := mk_name_generator (mk_name1 "g") 4 in
  run_steps (toy_kernel strip_application) self [exactly_3] st
  = Raise (tactic_exception "rewrite step failed" (Some exactly_3)
             (update_proof_state s
                [mk_goal (goal_meta (toy_goal (App const_f (App const_f const_c)))) const_c]
                ∅ ngen)
             (Some tr)).
Proof.
  intros s self st tr ngen.
  set (g0 := toy_goal (App const_f (App const_f const_c))).
  apply (exactly_n_failure_state (toy_kernel strip_application) self 3 false
           (loc_goal_only occ_all) None const_rule const_rule const_rule [] 2
           st st
           (mk_rewrite_state ngen g0 ∅ false empty_trace)
           (mk_rewrite_state ngen g0 ∅ false empty_trace)
           (mk_rewrite_state ngen g0 ∅ true tr)
           (mk_rewrite_state ngen (mk_goal (goal_meta g0) const_c) ∅ true tr)
           (mk_rewrite_state ngen (mk_goal (goal_meta g0) const_c) ∅ true tr)).
  - reflexivity.
  - reflexivity.
  - reflexivity.
  - reflexivity.
  - reflexivity.
  - repeat econstructor.
  - reflexivity.
  - simpl. lia.
  - simpl. lia.
Defined.

(** ** No goals *)

(** C10. On a proof state without goals the tactic runs no step: it raises
    the no-goal error when failure reporting is enabled for the proof state,
    and otherwise yields the empty sequence of successor states; the outcome
    is the same for every list of steps and every kernel.  The proof state
    is a value that the tactic only reads; the error carries it as it
    was. *)
Theorem rewrite_without_goals (K : kernel) (elems : list expr)
    (opts : gmap name option_value) (s : proof_state) :
  get_goals s = [] ->
  mk_rewrite_tactic K elems opts s
  = (if report_failure s then Raise (no_goal_exception s) else Return []) /\
  forall K' elems', mk_rewrite_tactic K' elems' opts s = mk_rewrite_tactic K elems opts s.
Proof.
  intros Hgoals. unfold mk_rewrite_tactic, throw_no_goal_if_enabled. rewrite Hgoals.
  split; [by destruct (report_failure s)|done].
Qed.

Lemma rewrite_without_goals_witness :
  mk_rewrite_tactic (toy_kernel strip_application) [exactly_3; at_most_7] ∅
    (mk_proof_state [] ∅ (mk_name_generator (mk_name1 "g") 0) false false)
  = Return [].
Proof.
  apply (rewrite_without_goals (toy_kernel strip_application) [exactly_3; at_most_7] ∅
           (mk_proof_state [] ∅ (mk_name_generator (mk_name1 "g") 0) false false)).
  reflexivity.
Defined.

(** ** Unfold and reduce steps *)

(** [normalises K to_unfold e st res]: the normaliser call that [reduce]
    makes for [e] in state [st] returns [res]. *)
Definition normalises (K : kernel) (to_unfold : list name) (e : expr) (st : rewrite_state)
    (res : normalize_result) : Prop :=
  k_normalize K (ngen_mk_child (m_ngen st)).1
    (fun d => (rewriter_converter_is_opaque to_unfold d (bool_decide (to_unfold = []))).1) e
  = inr res.

(** The converter was asked about one of the named constants, and so made it
    unfoldable for the normaliser; this is what [reduce] records as
    "unfolded". *)
Definition unfolded_named (to_unfold : list name) (res : normalize_result) : Prop :=
  exists d, d ∈ to_unfold /\ d ∈ nr_is_opaque_calls res.

Lemma unfolded_after_true to_unfold calls : unfolded_after to_unfold calls true = true.
Proof.
  unfold unfolded_after. induction calls as [|d calls IH]; [done|]. simpl.
  unfold rewriter_converter_is_opaque at 2. by destruct (bool_decide (d ∈ to_unfold)).
Qed.

Lemma unfolded_after_false to_unfold calls :
  unfolded_after to_unfold calls false = true ->
  exists d, d ∈ to_unfold /\ d ∈ calls.
Proof.
  unfold unfolded_after. induction calls as [|d calls IH]; [done|]. simpl.
  unfold rewriter_converter_is_opaque at 2.
  destruct (bool_decide (d ∈ to_unfold)) eqn:Hd; simpl.
  - intros _. exists d. split; [by apply bool_decide_eq_true in Hd|by left].
  - intros H. destruct (IH H) as (d' & ? & ?). exists d'. split; [done|by right].
Qed.

Section Reduce.
Variable K : kernel.

Lemma reduce_some e to_unfold st r st' :
  reduce K e to_unfold st = Ok (Some r) st' ->
  exists res, normalises K to_unfold e st res /\ nr_cs res = [] /\
              (to_unfold <> [] -> unfolded_named to_unfold res).
Proof.
  unfold reduce, normalises. destruct (ngen_mk_child (m_ngen st)) as [child ngen]; simpl.
  destruct (k_normalize K child _ e) as [ex|res]; [done|].
  destruct (unfolded_after to_unfold (nr_is_opaque_calls res) _) eqn:Hunf; [|done]. simpl.
  destruct (bool_decide (nr_cs res = [])) eqn:Hcs; [|done]. simpl. intros _.
  exists res. repeat split; [by apply bool_decide_eq_true in Hcs|].
  intros Hne. rewrite bool_decide_eq_false_2 in Hunf by done.
  by apply unfolded_after_false.
Qed.

Lemma reduce_no_names e st res :
  normalises K [] e st res -> nr_cs res = [] ->
  reduce K e [] st = Ok (Some (nr_expr res)) (set_ngen st (ngen_mk_child (m_ngen st)).2).
Proof.
  unfold reduce, normalises. destruct (ngen_mk_child (m_ngen st)) as [child ngen]; simpl.
  intros -> Hcs. rewrite unfolded_after_true, Hcs. done.
Qed.

Lemma process_reduce_goal_true to_unfold st st' :
  process_reduce_goal K to_unfold st = Ok true st' ->
  exists r st1, reduce K (goal_type (m_g st)) to_unfold st = Ok (Some r) st1.
Proof.
  unfold process_reduce_goal, bind, get_state.
  destruct (reduce K _ to_unfold st) as [[r|] st1|ex]; [eauto|done|done].
Qed.

Lemma process_reduce_hypothesis_true hyp to_unfold st st' :
  process_reduce_hypothesis K hyp to_unfold st = Ok true st' ->
  exists r st1, reduce K (mlocal_type hyp) to_unfold st = Ok (Some r) st1.
Proof.
  unfold process_reduce_hypothesis, bind.
  destruct (reduce K _ to_unfold st) as [[r|] st1|ex]; [eauto|done|done].
Qed.

Lemma replace_goal_ok t st : exists st', replace_goal K t st = Ok tt st'.
Proof. unfold replace_goal, update_goal. destruct (ngen_next _). eauto. Qed.

Lemma replace_hypothesis_ok hyp t st : exists st', replace_hypothesis K hyp t st = Ok tt st'.
Proof. unfold replace_hypothesis, update_goal. destruct (ngen_next _). eauto. Qed.

(** An unfold step hands its names, and a reduce step without extra term the
    empty list, to the same method. *)
Lemma process_unfold_step_names ns loc :
  process_unfold_step K (mk_rewrite_unfold ns loc) = process_reduce_names K ns loc.
Proof. reflexivity. Qed.

Lemma process_reduce_step_names self loc :
  process_reduce_step K self (mk_rewrite_reduce loc) = process_reduce_names K [] loc.
Proof. reflexivity. Qed.
End Reduce.

Definition unfold_nothing : expr := mk_rewrite_unfold [] (loc_goal_only occ_all).

(** C6, as stated, fails for an unfold step that names no constant: it
    succeeds although the normaliser never asked for a constant, so that
    nothing was unfolded. *)
Lemma unfold_without_names_succeeds :
  let K := toy_kernel always_applies in
  let self := mk_rewrite_fn (toy_proof_state const_c) true 200 None in
  let st := mk_rewrite_state (mk_name_generator (mk_name1 "g") 3) (toy_goal const_c) ∅
              false empty_trace in
  (forall ngen is_opaque e, exists res,
      k_normalize K ngen is_opaque e = inr res /\ nr_is_opaque_calls res = []) /\
  exists st', process_step K self unfold_nothing st = Ok true st'.
Proof.
  split.
  - intros ngen is_opaque e. eexists. split; reflexivity.
  - eexists. reflexivity.
Qed.

(** C6, amended. For a single target (the goal, or a hypothesis): a step
    that names constants to unfold succeeds on the target only if the
    normalisation of the target's type produced no residual constraints and
    made at least one of the named constants unfoldable; with the empty list
    of names -- a reduce step without extra term, or an unfold step that
    names nothing -- it succeeds whenever the normalisation produced no
    residual constraints, whether or not anything was unfolded. *)
Theorem reduce_target_success (K : kernel) (to_unfold : list name) (st : rewrite_state) :
  (forall st', process_reduce_goal K to_unfold st = Ok true st' ->
     exists res, normalises K to_unfold (goal_type (m_g st)) st res /\ nr_cs res = [] /\
                 (to_unfold <> [] -> unfolded_named to_unfold res)) /\
  (forall hyp st', process_reduce_hypothesis K hyp to_unfold st = Ok true st' ->
     exists res, normalises K to_unfold (mlocal_type hyp) st res /\ nr_cs res = [] /\
                 (to_unfold <> [] -> unfolded_named to_unfold res)) /\
  (forall res, normalises K [] (goal_type (m_g st)) st res -> nr_cs res = [] ->
     exists st', process_reduce_goal K [] st = Ok true st') /\
  (forall hyp res, normalises K [] (mlocal_type hyp) st res -> nr_cs res = [] ->
     exists st', process_reduce_hypothesis K hyp [] st = Ok true st').
Proof.
  repeat split.
  - intros st' H. apply process_reduce_goal_true in H as (r & st1 & H).
    by eapply reduce_some.
  - intros hyp st' H. apply process_reduce_hypothesis_true in H as (r & st1 & H).
    by eapply reduce_some.
  - intros res Hn Hcs. unfold process_reduce_goal, bind, get_state.
    rewrite (reduce_no_names K _ st res Hn Hcs).
    destruct (replace_goal_ok K (nr_expr res) (set_ngen st (ngen_mk_child (m_ngen st)).2))
      as [st' ->]. eauto.
  - intros hyp res Hn Hcs. unfold process_reduce_hypothesis, bind.
    rewrite (reduce_no_names K _ st res Hn Hcs).
    destruct (replace_hypothesis_ok K hyp (nr_expr res)
                (set_ngen st (ngen_mk_child (m_ngen st)).2)) as [st' ->]. eauto.
Qed.

Lemma reduce_target_success_witness :
  let K := toy_kernel always_applies in
  let st := mk_rewrite_state (mk_name_generator (mk_name1 "g") 3) (toy_goal const_c) ∅
              false empty_trace in
  exists st', process_reduce_goal K [] st = Ok true st'.
Proof.
  intros K st.
  apply (proj1 (proj2 (proj2 (reduce_target_success K [] st)))
           (mk_normalize_result const_c [] [])); reflexivity.
Defined.

(** With a name to unfold that the normaliser never meets, the unfold step
    fails on the goal. *)
Example unfold_unused_name_fails :
  let st := mk_rewrite_state (mk_name_generator (mk_name1 "g") 3) (toy_goal const_c) ∅
              false empty_trace in
  process_reduce_goal (toy_kernel always_applies) [mk_name1 "f"] st
  = Ok false (set_ngen st (mk_name_generator (mk_name1 "g") 4)).
Proof. reflexivity. Qed.

(** ** Unbounded repetition *)

Section Repetition.
Variable K : kernel.
Variable self : rewrite_fn.

Definition ceiling_error : exception :=
  generic_exception (max_iter_exceeded_message (m_max_iter self)) (m_expr_loc self).

(** A [ZeroOrMore] step applies the rule until an application fails and then
    succeeds, also when the first application fails already; when as many
    applications as the ceiling allows have succeeded it raises the
    ceiling-exceeded error instead, so with a ceiling of zero it raises at
    once. *)
Theorem zero_or_more_step (symm : bool) (loc : location) (args : list expr)
    (orig_elem pattern : expr) (m : nat) (st0 st1 st2 st3 : rewrite_state) :
  let elem := mk_macro (rewrite_element_macro_cell (mk_zero_or_more symm loc)) args in
  k_get_pattern K self elem st0 = Ok pattern st1 ->
  init_trace self orig_elem pattern st1 = Ok tt st2 ->
  applications K self orig_elem pattern m st2 st3 ->
  (forall st4,
      k_process_rewrite_single_step K self orig_elem pattern st3 = Ok false st4 ->
      (m < N.to_nat (m_max_iter self))%nat ->
      process_rewrite_step K self elem orig_elem st0 = Ok true st4) /\
  (m = N.to_nat (m_max_iter self) ->
   process_rewrite_step K self elem orig_elem st0 = Throw ceiling_error).
Proof.
  intros elem Hpat Hinit Happ. split.
  - intros st4 Hfail Hm. unfold process_rewrite_step, bind. rewrite Hpat, Hinit. simpl.
    by rewrite (rewrite_loop_fails K self orig_elem pattern m _ 0 st2 st3 st4 Happ Hfail Hm).
  - intros ->. unfold process_rewrite_step, bind. rewrite Hpat, Hinit. simpl.
    by rewrite (rewrite_loop_all K self orig_elem pattern _ 0 st2 st3 Happ).
Qed.

(** A [OneOrMore] step fails when the first application fails.  After a
    first success it applies the rule until an application fails and then
    succeeds; the ceiling counts the applications after the first one, so
    the error is raised only when one application more than the ceiling has
    succeeded. *)
Theorem one_or_more_step (symm : bool) (loc : location) (args : list expr)
    (orig_elem pattern : expr) (m : nat) (st0 st1 st2 st3 : rewrite_state) :
  let elem := mk_macro (rewrite_element_macro_cell (mk_one_or_more symm loc)) args in
  k_get_pattern K self elem st0 = Ok pattern st1 ->
  init_trace self orig_elem pattern st1 = Ok tt st2 ->
  applications K self orig_elem pattern m st2 st3 ->
  (forall st4,
      k_process_rewrite_single_step K self orig_elem pattern st3 = Ok false st4 ->
      (m <= N.to_nat (m_max_iter self))%nat ->
      process_rewrite_step K self elem orig_elem st0 = Ok (negb (bool_decide (m = O))) st4) /\
  (m = S (N.to_nat (m_max_iter self)) ->
   process_rewrite_step K self elem orig_elem st0 = Throw ceiling_error).
Proof.
  intros elem Hpat Hinit Happ. split.
  - intros st4 Hfail Hm. unfold process_rewrite_step, bind. rewrite Hpat, Hinit. simpl.
    inversion Happ as [st Heq1 Heq2|k st st' st'' Hfirst Hrest]; subst.
    + by rewrite Hfail.
    + rewrite Hfirst. simpl.
      rewrite (rewrite_loop_fails K self orig_elem pattern k _ 0 st' st3 st4 Hrest Hfail);
        [done|lia].
  - intros ->. unfold process_rewrite_step, bind. rewrite Hpat, Hinit. simpl.
    inversion Happ as [|k st st' st'' Hfirst Hrest]; subst.
    rewrite Hfirst. simpl.
    by rewrite (rewrite_loop_all K self orig_elem pattern _ 0 st' st3 Hrest).
Qed.
End Repetition.

Lemma zero_or_more_step_witness :
  let self := mk_rewrite_fn (toy_proof_state const_c) true 200 None in
  let st := mk_rewrite_state (mk_name_generator (mk_name1 "g") 0) (toy_goal const_c) ∅
              false empty_trace in
  process_rewrite_step (toy_kernel strip_application) self zero_or_more_rule
    zero_or_more_rule st
  = Ok true (set_trace st true (mk_trace (Some zero_or_more_rule) (Some const_rule) [])).
Proof.
  intros self st.
  apply (proj1 (zero_or_more_step (toy_kernel strip_application) self false
                  (loc_goal_only occ_all) [const_rule] zero_or_more_rule const_rule 0
                  st st
                  (set_trace st true (mk_trace (Some zero_or_more_rule) (Some const_rule) []))
                  (set_trace st true (mk_trace (Some zero_or_more_rule) (Some const_rule) []))
                  eq_refl eq_refl (applications_O _ _ _ _ _))).
  - reflexivity.
  - simpl. lia.
Defined.

Definition one_or_more_rule : expr :=
  mk_rewrite_one_or_more None const_rule false (loc_goal_only occ_all).

Lemma one_or_more_step_witness :
  let self := mk_rewrite_fn (toy_proof_state const_c) true 200 None in
  let st := mk_rewrite_state (mk_name_generator (mk_name1 "g") 0) (toy_goal const_c) ∅
              false empty_trace in
  process_rewrite_step (toy_kernel strip_application) self one_or_more_rule
    one_or_more_rule st
  = Ok false (set_trace st true (mk_trace (Some one_or_more_rule) (Some const_rule) [])).
Proof.
  intros self st.
  apply (proj1 (one_or_more_step (toy_kernel strip_application) self false
                  (loc_goal_only occ_all) [const_rule] one_or_more_rule const_rule 0
                  st st
                  (set_trace st true (mk_trace (Some one_or_more_rule) (Some const_rule) []))
                  (set_trace st true (mk_trace (Some one_or_more_rule) (Some const_rule) []))
                  eq_refl eq_refl (applications_O _ _ _ _ _))).
  - reflexivity.
  - simpl. lia.
Defined.

(** ** The sequence of steps *)

Section Steps.
Variable K : kernel.
Variable self : rewrite_fn.

(** The steps of [elems], run in order from [st], all succeed and leave
    [st']. *)
Inductive steps_succeed : list expr -> rewrite_state -> rewrite_state -> Prop :=
| steps_succeed_nil st : steps_succeed [] st st
| steps_succeed_cons elem elems st st1 st2 :
    process_step K (set_expr_loc self (Some elem)) elem st = Ok true st1 ->
    steps_succeed elems st1 st2 ->
    steps_succeed (elem :: elems) st st2.

Lemma run_steps_app pre post st st' :
  steps_succeed pre st st' ->
  run_steps K self (pre ++ post) st = run_steps K self post st'.
Proof.
  induction 1 as [st|elem elems st st1 st2 Hstep _ IH]; [done|].
  simpl. by rewrite Hstep.
Qed.

(** The first failing step aborts the invocation: the steps behind it are
    not run.  With failure reporting on, the tactic-failure exception names
    the failing step and carries the proof state at the failure; with
    failure reporting off, the result is the empty sequence of successor
    states and nothing is raised. *)
Theorem run_steps_first_failure (pre post : list expr) (elem : expr)
    (st st' st'' : rewrite_state) :
  steps_succeed pre st st' ->
  process_step K (set_expr_loc self (Some elem)) elem st' = Ok false st'' ->
  run_steps K self (pre ++ elem :: post) st
  = if report_failure (m_ps self)
    then Raise (tactic_exception "rewrite step failed" (Some elem)
                  (current_proof_state self st'') (failure_trace self st''))
    else Return [].
Proof.
  intros Hpre Hfail. rewrite (run_steps_app pre _ st st' Hpre). simpl. rewrite Hfail.
  destruct (report_failure (m_ps self)); [|done]. unfold failure_trace.
  by destruct (negb (m_use_trace self) || negb (m_trace_initialized st'')).
Qed.

(** When every step succeeds, the result is exactly one successor state: the
    tactic's proof state with the substitution and name generator as the
    steps left them, and with its first goal replaced by the working goal,
    or removed if the end-of-invocation check finds the working goal
    trivial. *)
Theorem run_steps_success (elems : list expr) (trivial : bool) (st st' st'' : rewrite_state) :
  steps_succeed elems st st' ->
  k_check_trivial_goal K self st' = Ok trivial st'' ->
  run_steps K self elems st
  = Return [update_proof_state (m_ps self)
              ((if trivial then [] else [m_g st'']) ++ tail (get_goals (m_ps self)))
              (m_subst st'') (m_ngen st'')].
Proof.
  intros Hsteps Htriv. rewrite <- (app_nil_r elems), (run_steps_app elems [] st st' Hsteps).
  simpl. rewrite Htriv. by destruct trivial.
Qed.
End Steps.

Lemma run_steps_first_failure_witness :
  let s := toy_proof_state (App const_f (App const_f const_c)) in
  let self := mk_rewrite_fn s true 200 None in
  let g0 := toy_goal (App const_f (App const_f const_c)) in
  let st := mk_rewrite_state (mk_name_generator (mk_name1 "g") 3) g0 ∅ false empty_trace in
  let st'' := mk_rewrite_state (mk_name_generator (mk_name1 "g") 4)
                (mk_goal (goal_meta g0) const_c) ∅ true
                (mk_trace (Some exactly_3) (Some const_rule) []) in
  run_steps (toy_kernel strip_application) self ([] ++ exactly_3 :: [at_most_7]) st
  = Raise (tactic_exception "rewrite step failed" (Some exactly_3)
             (current_proof_state self st'') (failure_trace self st'')).
Proof.
  intros s self g0 st st''.
  apply (run_steps_first_failure (toy_kernel strip_application) self [] [at_most_7]
           exactly_3 st st st'').
  - constructor.
  - reflexivity.
Defined.

Lemma run_steps_success_witness :
  let s := toy_proof_state (App const_f (App const_f const_c)) in
  let self := mk_rewrite_fn s true 200 None in
  let g0 := toy_goal (App const_f (App const_f const_c)) in
  let st := mk_rewrite_state (mk_name_generator (mk_name1 "g") 3) g0 ∅ false empty_trace in
  let st' := mk_rewrite_state (mk_name_generator (mk_name1 "g") 4)
               (mk_goal (goal_meta g0) const_c) ∅ true
               (mk_trace (Some zero_or_more_rule) (Some const_rule) []) in
  run_steps (toy_kernel strip_application) self [zero_or_more_rule] st
  = Return [update_proof_state s ([m_g st'] ++ []) ∅ (mk_name_generator (mk_name1 "g") 4)].
Proof.
  intros s self g0 st st'.
  apply (run_steps_success (toy_kernel strip_application) self [zero_or_more_rule] false
           st st' st').
  - eapply steps_succeed_cons; [reflexivity|constructor].
  - reflexivity.
Defined.

(** ** The outcome of an unfold or reduce step on the goal *)


Section ReduceOutcome.
Variable K : kernel.




(** ** Steps without trace *)

Definition same_trace (st st' : rewrite_state) : Prop :=
  m_trace_initialized st' = m_trace_initialized st /\ m_trace st' = m_trace st.

Lemma same_trace_refl st : same_trace st st.
Proof. done. Qed.

Lemma same_trace_trans st1 st2 st3 :
  same_trace st1 st2 -> same_trace st2 st3 -> same_trace st1 st3.
Proof. intros [? ?] [? ?]. split; congruence. Qed.

Lemma reduce_same_trace e to_unfold st r st' :
  reduce K e to_unfold st = Ok r st' -> same_trace st st'.
Proof.
  unfold reduce. destruct (ngen_mk_child (m_ngen st)) as [child ngen].
  destruct (k_normalize K child _ e) as [ex|res]; [done|].
  destruct (_ || _); intros [= _ <-]; done.
Qed.

Lemma replace_goal_same_trace t st u st' :
  replace_goal K t st = Ok u st' -> same_trace st st'.
Proof.
  unfold replace_goal, update_goal. destruct (ngen_next _). intros [= _ <-]. done.
Qed.

Lemma replace_hypothesis_same_trace hyp t st u st' :
  replace_hypothesis K hyp t st = Ok u st' -> same_trace st st'.
Proof.
  unfold replace_hypothesis, update_goal. destruct (ngen_next _). intros [= _ <-]. done.
Qed.

Lemma process_reduce_goal_same_trace to_unfold st b st' :
  process_reduce_goal K to_unfold st = Ok b st' -> same_trace st st'.
Proof.
  unfold process_reduce_goal, bind, get_state.
  destruct (reduce K _ to_unfold st) as [[t|] st1|ex] eqn:Hr; [| |done].
  - destruct (replace_goal K t st1) as [u st2|ex] eqn:Hg; [|done].
    intros [= _ <-]. eapply same_trace_trans.
    + by eapply reduce_same_trace.
    + by eapply replace_goal_same_trace.
  - intros [= _ <-]. by eapply reduce_same_trace.
Qed.

Lemma process_reduce_hypothesis_same_trace hyp to_unfold st b st' :
  process_reduce_hypothesis K hyp to_unfold st = Ok b st' -> same_trace st st'.
Proof.
  unfold process_reduce_hypothesis, bind.
  destruct (reduce K _ to_unfold st) as [[t|] st1|ex] eqn:Hr; [| |done].
  - destruct (replace_hypothesis K hyp t st1) as [u st2|ex] eqn:Hg; [|done].
    intros [= _ <-]. eapply same_trace_trans.
    + by eapply reduce_same_trace.
    + by eapply replace_hypothesis_same_trace.
  - intros [= _ <-]. by eapply reduce_same_trace.
Qed.

Lemma process_reduce_hyps_same_trace to_unfold loc hyps :
  forall progress st b st',
    process_reduce_hyps K to_unfold loc hyps progress st = Ok b st' -> same_trace st st'.
Proof.
  induction hyps as [|h hyps IH]; intros progress st b st'; simpl.
  - intros [= _ <-]. done.
  - destruct (includes_hypothesis loc (local_pp_name h)); [|apply IH].
    unfold bind.
    destruct (process_reduce_hypothesis K h to_unfold st) as [b1 st1|ex] eqn:Hh; [|done].
    intros Hrest. eapply same_trace_trans.
    + by eapply process_reduce_hypothesis_same_trace.
    + by eapply IH.
Qed.

Lemma process_reduce_names_same_trace to_unfold loc st b st' :
  process_reduce_names K to_unfold loc st = Ok b st' -> same_trace st st'.
Proof.
  unfold process_reduce_names. destruct (is_goal_only loc).
  { apply process_reduce_goal_same_trace. }
  unfold bind, get_state.
  destruct (process_reduce_hyps K to_unfold loc _ false st) as [p1 st1|ex] eqn:Hh; [|done].
  apply process_reduce_hyps_same_trace in Hh.
  destruct (includes_goal loc).
  - destruct (process_reduce_goal K to_unfold st1) as [b1 st2|ex] eqn:Hg; [|done].
    intros [= _ <-]. eapply same_trace_trans; [done|].
    by eapply process_reduce_goal_same_trace.
  - intros [= _ <-]. done.
Qed.

(** A failing unfold step, and a failing reduce step without extra term, is
    reported without a trace, whether or not tracing is enabled: the
    exception carries the generic message only. *)
Theorem unfold_failure_untraced (self : rewrite_fn) (elem : expr) (ns : list name)
    (loc : location) (rest : list expr) (st st' : rewrite_state) :
  elem = mk_rewrite_unfold ns loc \/ elem = mk_rewrite_reduce loc ->
  process_step K (set_expr_loc self (Some elem)) elem st = Ok false st' ->
  report_failure (m_ps self) = true ->
  run_steps K self (elem :: rest) st
  = Raise (tactic_exception "rewrite step failed" (Some elem)
             (current_proof_state self st') None).
Proof.
  intros Helem Hstep Hrep. simpl. rewrite Hstep, Hrep.
  assert (Hinit : m_trace_initialized st' = false).
  { destruct Helem as [-> | ->]; unfold process_step, bind, clear_trace in Hstep;
      simpl in Hstep; unfold bind in Hstep; simpl in Hstep;
      by apply process_reduce_names_same_trace in Hstep as [-> _]. }
  by rewrite Hinit, orb_true_r.
Qed.
End ReduceOutcome.


Lemma unfold_failure_untraced_witness :
  let self := mk_rewrite_fn (toy_proof_state const_c) true 200 None in
  let st := mk_rewrite_state (mk_name_generator (mk_name1 "g") 3) (toy_goal const_c) ∅
              false empty_trace in
  let elem := mk_rewrite_unfold [mk_name1 "f"] (loc_goal_only occ_all) in
  run_steps (toy_kernel always_applies) self [elem] st
  = Raise (tactic_exception "rewrite step failed" (Some elem)
             (current_proof_state self (set_ngen st (mk_name_generator (mk_name1 "g") 4)))
             None).
Proof.
  intros self st elem.
  apply (unfold_failure_untraced (toy_kernel always_applies) self elem [mk_name1 "f"]
           (loc_goal_only occ_all) [] st
           (set_ngen st (mk_name_generator (mk_name1 "g") 4))).
  - by left.
  - reflexivity.
  - reflexivity.
Defined.

End RewriteTactic.

(** * The local context manager *)

Module LocalContext.

Import RewriteTactic.

(** ** [abstract_locals] *)

(** The loop over [locals] in the function passed to [replace]: the position
    of the first entry with the name of [m], counted from [i]. *)
Fixpoint find_local (locals : list expr) (m : expr) (i : N) : option N :=
  match locals with
  | [] => None
  | l :: locals' =>
      if bool_decide (mlocal_name l = mlocal_name m) then Some i
      else find_local locals' m (i + 1)
  end.

(** The function passed to [replace]. *)
Definition abstract_locals_fn (locals : list expr) (m : expr) (offset : N) : option expr :=
  if negb (has_local m) then Some m
  else if is_local m then
    match find_local locals m 0 with
    | Some i => Some (Var (offset + i))
    | None => None
    end
  else None.

Definition abstract_locals (e : expr) (locals : list expr) : expr :=
  if negb (has_local e) then e
  else replace (abstract_locals_fn locals) e 0.

(** ** The class [local_context] *)

Record local_context : Type := mk_local_context {
  m_ctx : list expr;
  m_ctx_abstracted : list expr
}.

(** [local_context::local_context()] *)
Definition empty_context : local_context := mk_local_context [] [].

(** The loop of [set_ctx]: every entry abstracted over the entries behind
    it. *)
Fixpoint abstract_suffixes (ctx : list expr) : list expr :=
  match ctx with
  | [] => []
  | l :: ctx' => abstract_locals l ctx' :: abstract_suffixes ctx'
  end.

(** [local_context::set_ctx], and with it [local_context(list<expr> const &)] *)
Definition set_ctx (ctx : list expr) : local_context :=
  mk_local_context ctx (abstract_suffixes ctx).

Definition pi_abstract_context (c : local_context) (e : expr) : expr :=
  foldl (fun e l => Pi (local_pp_name l) (mlocal_type l) e (local_info l))
    (abstract_locals e (m_ctx c)) (m_ctx_abstracted c).

Fixpoint apply_context_core (f : expr) (ctx : list expr) : expr :=
  match ctx with
  | l :: ctx' => App (apply_context_core f ctx') l
  | [] => f
  end.

Definition apply_context (c : local_context) (f : expr) : expr :=
  apply_context_core f (m_ctx c).

Definition mk_type_metavar (c : local_context) (ngen : name_generator)
    : expr * name_generator :=
  let '(n, ngen) := ngen_next ngen in
  let '(u, ngen) := ngen_next ngen in
  let s := Sort (level_meta u) in
  let t := pi_abstract_context c s in
  (Meta n t, ngen).

Definition mk_type_meta (c : local_context) (ngen : name_generator)
    : expr * name_generator :=
  let '(m, ngen) := mk_type_metavar c ngen in (apply_context c m, ngen).

Definition mk_metavar (c : local_context) (ngen : name_generator) (type : option expr)
    : expr * name_generator :=
  let '(n, ngen) := ngen_next ngen in
  let '(r_type, ngen) :=
    match type with
    | Some t => (t, ngen)
    | None => mk_type_meta c ngen
    end in
  let t := pi_abstract_context c r_type in
  (Meta n t, ngen).

Definition mk_meta (c : local_context) (ngen : name_generator) (type : option expr)
    : expr * name_generator :=
  let '(mvar, ngen) := mk_metavar c ngen type in (apply_context c mvar, ngen).

Definition add_local (c : local_context) (l : expr) : local_context :=
  mk_local_context (l :: m_ctx c) (abstract_locals l (m_ctx c) :: m_ctx_abstracted c).

Definition get_data (c : local_context) : list expr := m_ctx c.

(** ** What a term mentions *)

(** [mentions names e]: a local constant with a name in [names] occurs in
    [e], possibly inside the type of another local constant or of a
    metavariable. *)
Fixpoint mentions (names : list name) (e : expr) : bool :=
  match e with
  | Var _ | Sort _ | Constant _ _ => false
  | Local n _ t _ => bool_decide (n ∈ names) || mentions names t
  | Meta _ t => mentions names t
  | App f a => mentions names f || mentions names a
  | Lambda _ d b _ | Pi _ d b _ => mentions names d || mentions names b
  | Macro _ args => existsb (mentions names) args
  end.

(** The leading [n] Pi binders of a term, outermost first, and what they
    bind. *)
Fixpoint strip_pis (n : nat) (e : expr) : option (list (name * expr * binder_info) * expr) :=
  match n with
  | O => Some ([], e)
  | S n' =>
      match e with
      | Pi x d b bi =>
          match strip_pis n' b with
          | Some (bs, body) => Some ((x, d, bi) :: bs, body)
          | None => None
          end
      | _ => None
      end
  end.

Definition binder_of (l : expr) : name * expr * binder_info :=
  (local_pp_name l, mlocal_type l, local_info l).

(** ** Properties of [abstract_locals] *)

Lemma has_local_mentions names e : has_local e = false -> mentions names e = false.
Proof.
  induction e as [| | | | |f a IHf IHa|n d b bi IHd IHb|n d b bi IHd IHb|d args IH]
    using expr_ind; simpl; try done; auto.
  - intros [Hf Ha]%orb_false_elim. by rewrite IHf, IHa.
  - intros [Hd Hb]%orb_false_elim. by rewrite IHd, IHb.
  - intros [Hd Hb]%orb_false_elim. by rewrite IHd, IHb.
  - induction IH as [|x args Hx _ IHargs]; simpl; [done|].
    intros [Hx' Hargs]%orb_false_elim. by rewrite Hx, IHargs.
Qed.

Lemma find_local_none locals m i :
  find_local locals m i = None <-> mlocal_name m ∉ map mlocal_name locals.
Proof.
  revert i. induction locals as [|l locals IH]; intros i; simpl.
  - split; [intros _; apply not_elem_of_nil|done].
  - rewrite not_elem_of_cons. case_bool_decide as Hn.
    + split; [done|]. intros [Hne _]. by destruct Hne.
    + rewrite IH. split; [by split|]. by intros [_ ?].
Qed.

Lemma abstract_locals_fn_local locals n pp t bi offset :
  n ∉ map mlocal_name locals ->
  abstract_locals_fn locals (Local n pp t bi) offset = None.
Proof.
  intros Hn. unfold abstract_locals_fn. simpl.
  by rewrite (proj2 (find_local_none locals (Local n pp t bi) 0) Hn).
Qed.

Lemma abstract_locals_fn_cases locals e offset :
  abstract_locals_fn locals e offset = Some e /\ has_local e = false \/
  (exists i, abstract_locals_fn locals e offset = Some (Var i)) \/
  abstract_locals_fn locals e offset = None /\
    (is_local e = true -> mlocal_name e ∉ map mlocal_name locals).
Proof.
  unfold abstract_locals_fn. destruct (has_local e) eqn:Hl; simpl; [|by left].
  right. destruct (is_local e) eqn:Hi; [|by right].
  destruct (find_local locals e 0) as [i|] eqn:Hf; [left; eauto|right].
  split; [done|]. intros _. by apply find_local_none in Hf.
Qed.

Lemma replace_unmentioned locals e :
  mentions (map mlocal_name locals) e = false ->
  forall offset, replace (abstract_locals_fn locals) e offset = e.
Proof.
  induction e as [| | |n t IH|n pp t bi IH|f a IHf IHa|n d b bi IHd IHb|n d b bi IHd IHb
                  |d args IH] using expr_ind; simpl; intros Hm offset; try done.
  - unfold abstract_locals_fn; simpl. destruct (has_local t); simpl; [|done].
    by rewrite IH.
  - apply orb_false_elim in Hm as [Hn Ht]. apply bool_decide_eq_false in Hn.
    rewrite abstract_locals_fn_local by done. by rewrite IH.
  - apply orb_false_elim in Hm as [Hf Ha].
    unfold abstract_locals_fn; simpl. destruct (has_local f || has_local a); simpl; [|done].
    by rewrite IHf, IHa.
  - apply orb_false_elim in Hm as [Hd Hb].
    unfold abstract_locals_fn; simpl. destruct (has_local d || has_local b); simpl; [|done].
    by rewrite IHd, IHb.
  - apply orb_false_elim in Hm as [Hd Hb].
    unfold abstract_locals_fn; simpl. destruct (has_local d || has_local b); simpl; [|done].
    by rewrite IHd, IHb.
  - unfold abstract_locals_fn; simpl. destruct (existsb has_local args); simpl; [|done].
    f_equal. induction IH as [|x args Hx _ IHargs]; simpl in *; [done|].
    apply orb_false_elim in Hm as [Hx' Hargs]. by rewrite Hx, IHargs.
Qed.

Lemma replace_eq f e offset :
  replace f e offset
  = match f e offset with
    | Some r => r
    | None =>
        match e with
        | Var _ | Sort _ | Constant _ _ => e
        | Meta n t => Meta n (replace f t offset)
        | Local n pp t bi => Local n pp (replace f t offset) bi
        | App g a => App (replace f g offset) (replace f a offset)
        | Lambda n d b bi => Lambda n (replace f d offset) (replace f b (offset + 1)) bi
        | Pi n d b bi => Pi n (replace f d offset) (replace f b (offset + 1)) bi
        | Macro d args => Macro d (map (fun a => replace f a offset) args)
        end
    end.
Proof. by destruct e. Qed.

Lemma replace_removes locals e :
  forall offset,
    mentions (map mlocal_name locals) (replace (abstract_locals_fn locals) e offset) = false.
Proof.
  induction e as [| | |n t IH|n pp t bi IH|f a IHf IHa|n d b bi IHd IHb|n d b bi IHd IHb
                  |d args IH] using expr_ind; intros offset; rewrite replace_eq;
    match goal with
    | |- context [abstract_locals_fn locals ?e offset] =>
        destruct (abstract_locals_fn_cases locals e offset)
          as [[Heq Hl]|[[j Heq]|[Heq Hn]]]
    end; rewrite Heq; try done; try (by apply has_local_mentions); simpl;
    rewrite ?IH, ?IHf, ?IHa, ?IHd, ?IHb; try done.
  - rewrite orb_false_r. apply bool_decide_eq_false. by apply Hn.
  - clear Heq Hn. induction IH as [|x args Hx _ IHargs]; simpl; [done|].
    by rewrite Hx, IHargs.
Qed.

Lemma abstract_locals_fixed e locals :
  mentions (map mlocal_name locals) e = false -> abstract_locals e locals = e.
Proof.
  intros Hm. unfold abstract_locals. destruct (has_local e); simpl; [|done].
  by apply replace_unmentioned.
Qed.

Lemma abstract_locals_clean e locals :
  mentions (map mlocal_name locals) (abstract_locals e locals) = false.
Proof.
  unfold abstract_locals. destruct (has_local e) eqn:Hl; simpl.
  - apply replace_removes.
  - by apply has_local_mentions.
Qed.

(** [abstract_locals] leaves a term alone in which none of the given locals
    occurs; this covers the terms without any local constant, which are
    returned without traversal. *)
Theorem abstract_locals_unmentioned (e : expr) (locals : list expr) :
  mentions (map mlocal_name locals) e = false -> abstract_locals e locals = e.
Proof.
  intros Hm. unfold abstract_locals.
  destruct (has_local e) eqn:Hl; simpl; [|done].
  by apply replace_unmentioned.
Qed.

Lemma abstract_locals_unmentioned_witness :
  abstract_locals (mk_app const_f [ParserUtil.local_a]) [ParserUtil.local_x]
  = mk_app const_f [ParserUtil.local_a].
Proof.
  apply (abstract_locals_unmentioned (mk_app const_f [ParserUtil.local_a]) [ParserUtil.local_x]).
  reflexivity.
Defined.

(** After [abstract_locals] none of the given locals occurs in the term any
    more, so abstracting a second time changes nothing. *)
Theorem abstract_locals_removes (e : expr) (locals : list expr) :
  mentions (map mlocal_name locals) (abstract_locals e locals) = false /\
  abstract_locals (abstract_locals e locals) locals = abstract_locals e locals.
Proof.
  split; [apply abstract_locals_clean|]. apply abstract_locals_fixed, abstract_locals_clean.
Qed.

(** ** Properties of the context *)

(** Building a context by adding its locals one by one, earliest first, gives
    the context that [set_ctx] builds from the whole list; both sequences of
    a context have the same length. *)
Theorem add_local_set_ctx (ctx : list expr) :
  foldr (fun l c => add_local c l) empty_context ctx = set_ctx ctx /\
  length (m_ctx (set_ctx ctx)) = length (m_ctx_abstracted (set_ctx ctx)) /\
  get_data (set_ctx ctx) = ctx.
Proof.
  split; [|split; [|done]].
  - induction ctx as [|l ctx IH]; [done|]. simpl. by rewrite IH.
  - simpl. induction ctx as [|l ctx IH]; [done|]. simpl. by rewrite IH.
Qed.

Lemma abstract_locals_keeps_local l ctx :
  is_local l = true -> mlocal_name l ∉ map mlocal_name ctx ->
  abstract_locals l ctx
  = Local (mlocal_name l) (local_pp_name l) (replace (abstract_locals_fn ctx) (mlocal_type l) 0)
      (local_info l).
Proof.
  destruct l as [| | | |n pp t bi| | | |]; try done. intros _ Hn. simpl in Hn.
  unfold abstract_locals. simpl. by rewrite abstract_locals_fn_local.
Qed.

(** The invariant of a context: an abstracted entry mentions none of the
    locals that stand behind it (the ones added before it); and when the
    entries of the context are local constants with distinct names, every
    abstracted entry is again a local constant, with the name, display name
    and binder annotation of the entry it stands for. *)
Theorem set_ctx_invariant (ctx : list expr) :
  (forall i a, m_ctx_abstracted (set_ctx ctx) !! i = Some a ->
               mentions (map mlocal_name (drop (S i) ctx)) a = false) /\
  (Forall (fun l => is_local l = true) ctx -> NoDup (map mlocal_name ctx) ->
   Forall2 (fun l a => is_local a = true /\ mlocal_name a = mlocal_name l /\
                       local_pp_name a = local_pp_name l /\ local_info a = local_info l)
     ctx (m_ctx_abstracted (set_ctx ctx))).
Proof.
  split.
  - simpl. induction ctx as [|l ctx IH]; intros i a Hi; [done|].
    destruct i as [|i]; simpl in *.
    + injection Hi as <-. rewrite drop_0. apply abstract_locals_clean.
    + by apply IH.
  - simpl. induction ctx as [|l ctx IH]; intros Hloc Hnd; simpl; [constructor|].
    apply Forall_cons in Hloc as [Hl Hloc]. apply NoDup_cons in Hnd as [Hn Hnd].
    constructor; [|by apply IH].
    rewrite abstract_locals_keeps_local by done. by destruct l.
Qed.

Lemma set_ctx_invariant_witness :
  Forall2 (fun l a => is_local a = true /\ mlocal_name a = mlocal_name l /\
                      local_pp_name a = local_pp_name l /\ local_info a = local_info l)
    [ParserUtil.local_x; ParserUtil.local_a]
    (m_ctx_abstracted (set_ctx [ParserUtil.local_x; ParserUtil.local_a])).
Proof.
  apply (proj2 (set_ctx_invariant [ParserUtil.local_x; ParserUtil.local_a])).
  - repeat constructor.
  - apply (bool_decide_unpack _). by vm_compute.
Defined.

Lemma apply_context_core_mk_app f ctx : apply_context_core f ctx = mk_app f (rev ctx).
Proof.
  induction ctx as [|l ctx IH]; simpl; [done|]. by rewrite ParserUtil.mk_app_snoc, IH.
Qed.

Lemma strip_pis_foldl e ls :
  strip_pis (length ls)
    (foldl (fun e l => Pi (local_pp_name l) (mlocal_type l) e (local_info l)) e ls)
  = Some (rev (map binder_of ls), e).
Proof.
  induction ls as [|l ls IH] using rev_ind; [done|].
  rewrite foldl_app, length_app, Nat.add_1_r, map_app. cbn [map]. rewrite rev_unit.
  simpl. by rewrite IH.
Qed.

(** [apply_context] is the converse of [pi_abstract_context].  The closure
    has one Pi binder per context entry, the outermost for the local added
    first, around the abstracted term; and [apply_context] applies a function
    to the context's locals, the one added first as first argument. *)
Theorem context_closure_shape (c : local_context) (e f : expr) :
  strip_pis (length (m_ctx_abstracted c)) (pi_abstract_context c e)
  = Some (rev (map binder_of (m_ctx_abstracted c)), abstract_locals e (m_ctx c)) /\
  apply_context c f = mk_app f (rev (m_ctx c)) /\
  (is_app f = false -> get_app_args (apply_context c f) [] = (f, rev (m_ctx c))).
Proof.
  split; [apply strip_pis_foldl|]. unfold apply_context.
  rewrite apply_context_core_mk_app. split; [done|].
  intros Hf. by apply ParserUtil.get_app_args_mk_app.
Qed.

Lemma context_closure_shape_witness :
  get_app_args (apply_context (set_ctx [ParserUtil.local_x; ParserUtil.local_a])
                  (Constant (mk_name1 "f") [])) []
  = (Constant (mk_name1 "f") [], [ParserUtil.local_a; ParserUtil.local_x]).
Proof.
  apply (proj2 (proj2 (context_closure_shape
                  (set_ctx [ParserUtil.local_x; ParserUtil.local_a]) (Var 0)
                  (Constant (mk_name1 "f") [])))).
  reflexivity.
Defined.

(** [mk_meta] with a type takes one fresh name: it returns the metavariable
    of that name, whose recorded type is the closure of the requested type
    over the context, applied to the context's locals.  Without a type it
    takes three consecutive names: for the metavariable, for the
    metavariable that stands for its type, and for the universe of that
    type; both metavariables are applied to the context's locals. *)
Theorem mk_meta_shape (c : local_context) (ngen : name_generator) (type : expr) :
  let n i := ngen_prefix ngen ++ [inr (ngen_next_idx ngen + i)] in
  let after i := mk_name_generator (ngen_prefix ngen) (ngen_next_idx ngen + i) in
  let args := rev (m_ctx c) in
  mk_meta c ngen (Some type)
  = (mk_app (Meta (n 0) (pi_abstract_context c type)) args, after 1) /\
  mk_meta c ngen None
  = (mk_app (Meta (n 0)
               (pi_abstract_context c
                  (mk_app (Meta (n 1) (pi_abstract_context c (Sort (level_meta (n 2)))))
                     args)))
       args, after 3).
Proof.
  intros n after args. unfold mk_meta, mk_metavar, mk_type_meta, mk_type_metavar, ngen_next,
    apply_context; simpl.
  rewrite !apply_context_core_mk_app. subst n after args; simpl.
  rewrite N.add_0_r, <- !N.add_assoc. done.
Qed.

End LocalContext.

(** * Serialization of the macros *)

Module MacroSerializer.

Import LetMacro RewriteTactic.

(** Modelled from the spec: the serializer and deserializer classes are
    missing.  A stream is the sequence of the values written to it, each of
    the kind of the C++ operand ([bool], [char], [unsigned], [std::string],
    [name], [list<name>], [location]); reading a value of another kind than
    the next one in the stream, or from an exhausted stream, is a corrupted
    stream. *)
Inductive item : Type :=
| item_bool (b : bool)
| item_char (c : N)
| item_unsigned (n : N)
| item_string (s : string)
| item_name (n : name)
| item_names (ns : list name)
| item_location (loc : location).

(** The outcome of a reader: the value and the rest of the stream,
    [corrupted_stream_exception], or a multiplicity code that is none of the
    five enumerators, on which the source goes on with a value the model
    has no counterpart of. *)
Inductive read_result (A : Type) : Type :=
| read_ok (a : A) (rest : list item)
| corrupted_stream
| unknown_multiplicity.
Arguments read_ok {A}.
Arguments corrupted_stream {A}.
Arguments unknown_multiplicity {A}.

(** [static_cast<char>(m)] and [static_cast<rewrite_info::multiplicity>(c)]. *)
Definition multiplicity_code (m : multiplicity) : N :=
  match m with
  | Once => 0
  | AtMostN => 1
  | ExactlyN => 2
  | ZeroOrMore => 3
  | OneOrMore => 4
  end.

Definition multiplicity_of_code (c : N) : option multiplicity :=
  match c with
  | 0 => Some Once
  | 1 => Some AtMostN
  | 2 => Some ExactlyN
  | 3 => Some ZeroOrMore
  | 4 => Some OneOrMore
  | _ => None
  end.

(** [operator<<] and [operator>>] of the three payload classes. *)
Definition write_unfold_info (e : unfold_info) : list item :=
  [item_names (unfold_names e); item_location (unfold_location e)].

Definition read_unfold_info (d : list item) : read_result unfold_info :=
  match d with
  | item_names ns :: item_location loc :: d' => read_ok (mk_unfold_info ns loc) d'
  | _ => corrupted_stream
  end.

Definition write_reduce_info (e : reduce_info) : list item :=
  [item_location (reduce_location e)].

Definition read_reduce_info (d : list item) : read_result reduce_info :=
  match d with
  | item_location loc :: d' => read_ok (mk_reduce_info loc) d'
  | _ => corrupted_stream
  end.

Definition write_rewrite_info (e : rewrite_info) : list item :=
  [item_bool (m_symm e); item_char (multiplicity_code (m_multiplicity e));
   item_location (m_location e)]
  ++ (if has_num e then [item_unsigned (num e)] else []).

(** Reads into a default-constructed [rewrite_info], whose [m_num] is
    empty. *)
Definition read_rewrite_info (d : list item) : read_result rewrite_info :=
  match d with
  | item_bool symm :: item_char multp :: item_location loc :: d' =>
      match multiplicity_of_code multp with
      | Some m =>
          if has_num (mk_rewrite_info symm m None loc) then
            match d' with
            | item_unsigned n :: d'' => read_ok (mk_rewrite_info symm m (Some n) loc) d''
            | _ => corrupted_stream
            end
          else read_ok (mk_rewrite_info symm m None loc) d'
      | None => unknown_multiplicity
      end
  | _ => corrupted_stream
  end.

(** The opcodes, as [initialize_rewrite_tactic] and [let.cpp] set them. *)
Definition g_rewrite_reduce_opcode : string := "RWR".
Definition g_rewrite_unfold_opcode : string := "RWU".
Definition g_rewrite_fold_opcode : string := "RWF".
Definition g_rewrite_elem_opcode : string := "RWE".

(** [macro_definition_cell::write] of the six cells of the two files; the
    cells of the explicit and as-atomic markers are not in the material. *)
Definition write_cell (d : macro_definition) : option (list item) :=
  match d with
  | let_value_definition_cell _ => Some [item_string get_let_value_opcode]
  | let_macro_definition_cell n => Some [item_string get_let_opcode; item_name n]
  | rewrite_reduce_macro_cell info =>
      Some (item_string g_rewrite_reduce_opcode :: write_reduce_info info)
  | rewrite_fold_macro_cell info =>
      Some (item_string g_rewrite_fold_opcode :: write_reduce_info info)
  | rewrite_unfold_macro_cell info =>
      Some (item_string g_rewrite_unfold_opcode :: write_unfold_info info)
  | rewrite_element_macro_cell info =>
      Some (item_string g_rewrite_elem_opcode :: write_rewrite_info info)
  | explicit_macro_cell | as_atomic_macro_cell => None
  end.

(** The registered readers.  [args] is the argument array with its length
    [num]; [g] is the let-value counter, which only the let-value reader
    advances. *)
Definition read_rewrite_reduce (d : list item) (args : list expr) : read_result expr :=
  if bool_decide (1 < length args)%nat then corrupted_stream
  else
    match read_reduce_info d with
    | read_ok info d' =>
        match args with
        | [] => read_ok (mk_rewrite_reduce (reduce_location info)) d'
        | a :: _ => read_ok (mk_rewrite_reduce_to a (reduce_location info)) d'
        end
    | corrupted_stream => corrupted_stream
    | unknown_multiplicity => unknown_multiplicity
    end.

Definition read_rewrite_fold (d : list item) (args : list expr) : read_result expr :=
  match args with
  | [a] =>
      match read_reduce_info d with
      | read_ok info d' => read_ok (mk_rewrite_fold a (reduce_location info)) d'
      | corrupted_stream => corrupted_stream
      | unknown_multiplicity => unknown_multiplicity
      end
  | _ => corrupted_stream
  end.

Definition read_rewrite_unfold (d : list item) (args : list expr) : read_result expr :=
  match args with
  | [] =>
      match read_unfold_info d with
      | read_ok info d' => read_ok (mk_macro (rewrite_unfold_macro_cell info) []) d'
      | corrupted_stream => corrupted_stream
      | unknown_multiplicity => unknown_multiplicity
      end
  | _ => corrupted_stream
  end.

Definition read_rewrite_elem (d : list item) (args : list expr) : read_result expr :=
  if negb (bool_decide (length args = 1%nat)) && negb (bool_decide (length args = 2%nat))
  then corrupted_stream
  else
    match read_rewrite_info d with
    | read_ok info d' => read_ok (mk_macro (rewrite_element_macro_cell info) args) d'
    | corrupted_stream => corrupted_stream
    | unknown_multiplicity => unknown_multiplicity
    end.

Definition read_let_value (d : list item) (args : list expr) (g : N) : read_result (expr * N) :=
  match args with
  | [a] => read_ok (mk_let_value a g) d
  | _ => corrupted_stream
  end.

Definition read_let (d : list item) (args : list expr) : read_result expr :=
  match args with
  | [v; b] =>
      match d with
      | item_name n :: d' => read_ok (mk_let n v b) d'
      | _ => corrupted_stream
      end
  | _ => corrupted_stream
  end.

Definition with_counter (g : N) (r : read_result expr) : read_result (expr * N) :=
  match r with
  | read_ok e d => read_ok (e, g) d
  | corrupted_stream => corrupted_stream
  | unknown_multiplicity => unknown_multiplicity
  end.

(** Modelled from the spec: the kernel reads the opcode of a macro and calls
    the reader registered for it with the arguments already read. *)
Definition read_macro_definition (d : list item) (args : list expr) (g : N)
    : read_result (expr * N) :=
  match d with
  | item_string k :: d' =>
      if bool_decide (k = g_rewrite_reduce_opcode) then with_counter g (read_rewrite_reduce d' args)
      else if bool_decide (k = g_rewrite_fold_opcode) then with_counter g (read_rewrite_fold d' args)
      else if bool_decide (k = g_rewrite_unfold_opcode) then
        with_counter g (read_rewrite_unfold d' args)
      else if bool_decide (k = g_rewrite_elem_opcode) then with_counter g (read_rewrite_elem d' args)
      else if bool_decide (k = get_let_value_opcode) then read_let_value d' args g
      else if bool_decide (k = get_let_opcode) then with_counter g (read_let d' args)
      else corrupted_stream
  | _ => corrupted_stream
  end.

(** The payload of an element step as the five factories build it: the count
    is present exactly for the two counted policies. *)
Definition well_formed_info (e : rewrite_info) : Prop :=
  has_num e = bool_decide (is_Some (m_num e)).

(** The numbers of arguments with which the nodes of a cell are built. *)
Definition cell_arity (d : macro_definition) (n : nat) : Prop :=
  match d with
  | let_value_definition_cell _ => n = 1%nat
  | let_macro_definition_cell _ => n = 2%nat
  | rewrite_reduce_macro_cell _ => n = 0%nat \/ n = 1%nat
  | rewrite_fold_macro_cell _ => n = 1%nat
  | rewrite_unfold_macro_cell _ => n = 0%nat
  | rewrite_element_macro_cell _ => n = 1%nat \/ n = 2%nat
  | explicit_macro_cell | as_atomic_macro_cell => False
  end.

Lemma read_write_rewrite_info e rest :
  well_formed_info e -> read_rewrite_info (write_rewrite_info e ++ rest) = read_ok e rest.
Proof.
  unfold well_formed_info. destruct e as [symm m [n|] loc]; destruct m; simpl; try done.
Qed.

(** Round trip.  What the cell of a let, reduce, fold, unfold or element node
    writes is read back, with the arguments of the node, as the same node,
    and the reader consumes exactly what was written. *)
Theorem read_write_macro (d : macro_definition) (args : list expr) (w rest : list item)
    (g : N) :
  (forall m_id, d <> let_value_definition_cell m_id) ->
  (forall info, d = rewrite_element_macro_cell info -> well_formed_info info) ->
  cell_arity d (length args) ->
  write_cell d = Some w ->
  read_macro_definition (w ++ rest) args g = read_ok (Macro d args, g) rest.
Proof.
  intros Hlv Hwf Har Hw. destruct d as [id|n| | |[loc]|[loc]|[ns loc]|info];
    simpl in Har, Hw; try done; injection Hw as <-.
  - by destruct (Hlv id).
  - by destruct args as [|v [|b [|? ?]]].
  - by destruct Har as [Har|Har]; destruct args as [|a [|? ?]].
  - by destruct args as [|a [|? ?]].
  - by destruct args as [|? ?].
  - change (with_counter g (read_rewrite_elem (write_rewrite_info info ++ rest) args)
            = read_ok (Macro (rewrite_element_macro_cell info) args, g) rest).
    unfold read_rewrite_elem.
    rewrite (read_write_rewrite_info info rest (Hwf info eq_refl)).
    by destruct Har as [Har|Har]; destruct args as [|a [|b [|? ?]]].
Qed.



Lemma read_write_macro_witness :
  let d := rewrite_element_macro_cell (mk_at_most_n 7 false (loc_goal_only occ_all)) in
  read_macro_definition
    ([item_string "RWE"; item_bool false; item_char 1; item_location (loc_goal_only occ_all);
      item_unsigned 7] ++ [item_bool true]) [const_rule] 0
  = read_ok (Macro d [const_rule], 0) [item_bool true].
Proof.
  intros d.
  apply (read_write_macro d [const_rule] _ [item_bool true] 0); try done.
  - intros info [= <-]. reflexivity.
  - simpl. by left.
Defined.



End MacroSerializer.
